(** * pgmpy: the canonical form of a Gaussian factor

    A shallow embedding of [pgmpy/factors/continuous/CanonicalFactor.py]
    (class [CanonicalFactor]) and the properties of its constructor, [copy],
    [to_joint_gaussian], [assignment] and [reduce]; with them
    [RoundingDiscretizer.get_discrete_values] of
    [pgmpy/continuous/discretize/rounding.py] (a cumulative distribution
    function on exact rationals) and the names the package
    [pgmpy/estimators/__init__.py] exports.

    Conventions of the embedding.
    - The entries of a numpy float array are idealised as exact rationals
      ([Qc], the canonical rationals, so that equality of entries is
      Leibniz equality).
    - A numpy array is a mutable object: the fields [K] and [h] of a factor
      hold locations of an array store, so that aliasing and copying are
      visible.  A factor is a mutable object too and lives in an object
      store.
    - Python exceptions are the [Raise] outcomes of an error monad; a
      computation on the store keeps the writes made before an exception.
    - Only the arrays a factor keeps are entered into the array store; the
      temporaries of a method are values.  [g] is kept as a value: no
      property below depends on the sharing of an array [g].
    - The parent class [ContinuousFactor] and the class
      [JointGaussianDistribution] are not among the sources: what is used of
      them is modelled from the specification and marked so. *)

From Stdlib Require Import QArith Qcanon Qround.
From stdpp Require Import gmap strings list numbers.

Local Open Scope string_scope.
Local Open Scope list_scope.
Local Open Scope nat_scope.

(** ** Exceptions and the error monad *)

Inductive exn : Type :=
| ValueError (msg : string)
| TypeError (msg : string)
| AttributeError (msg : string)
| IndexError (msg : string)
| LinAlgError (msg : string)
| DanglingReference.
(* [DanglingReference] is no Python exception: it makes the lookup of a
   location total; a Python program never holds a reference to nothing. *)

Inductive Res (A : Type) : Type :=
| Ok (a : A)
| Raise (e : exn).
Arguments Ok {A} a.
Arguments Raise {A} e.

#[global] Instance Res_ret : MRet Res := fun A a => Ok a.
#[global] Instance Res_bind : MBind Res :=
  fun A B k m => match m with Ok a => k a | Raise e => Raise e end.
#[global] Instance Res_fmap : FMap Res :=
  fun A B k m => match m with Ok a => Ok (k a) | Raise e => Raise e end.

Definition is_Ok {A} (r : Res A) : Prop := exists a, r = Ok a.

(** ** The numpy primitives the class uses

    Two-dimensional arrays with an explicit shape, so that the empty arrays
    of shape (0, 0), (0, r) and (0, 1) stay distinct. *)

Module np.

Record ndarray : Type := NDArray { shape : nat * nat; data : list (list Qc) }.

Definition nrows (a : ndarray) : nat := fst (shape a).
Definition ncols (a : ndarray) : nat := snd (shape a).

(** The rows of the data agree with the shape. *)
Definition wf (a : ndarray) : Prop :=
  length (data a) = nrows a /\ Forall (fun r => length r = ncols a) (data a).

(** [a[i, j]] for an index inside the shape. *)
Definition item (a : ndarray) (i j : nat) : Qc :=
  nth j (nth i (data a) []) 0%Qc.

Definition column (a : ndarray) (j : nat) : list Qc :=
  map (fun r => nth j r 0%Qc) (data a).

Definition in_bounds (n : nat) (idx : list nat) : bool :=
  forallb (fun i => i <? n) idx.

(** [a[np.ix_(rows, cols)]]: the cross product of two index lists; advanced
    indexing returns a new array. *)
Definition ix_ (a : ndarray) (rows cols : list nat) : Res ndarray :=
  if in_bounds (nrows a) rows && in_bounds (ncols a) cols
  then Ok (NDArray (length rows, length cols)
             (map (fun i => map (fun j => item a i j) cols) rows))
  else Raise (IndexError "index is out of bounds").

(** [a[rows]]: the listed rows, all columns; a new array. *)
Definition take (a : ndarray) (rows : list nat) : Res ndarray :=
  if in_bounds (nrows a) rows
  then Ok (NDArray (length rows, ncols a)
             (map (fun i => nth i (data a) []) rows))
  else Raise (IndexError "index is out of bounds").

(** [a.T] *)
Definition T (a : ndarray) : ndarray :=
  NDArray (ncols a, nrows a) (map (column a) (seq 0 (ncols a))).

Definition vdot (u v : list Qc) : Qc :=
  fold_right Qcplus 0%Qc (zip_with Qcmult u v).

(** [np.dot(a, b)] of two 2-d arrays: the matrix product. *)
Definition dot (a b : ndarray) : Res ndarray :=
  if decide (ncols a = nrows b)
  then Ok (NDArray (nrows a, ncols b)
             (map (fun r => map (fun j => vdot r (column b j)) (seq 0 (ncols b)))
                  (data a)))
  else Raise (ValueError "shapes not aligned").

(** Broadcasting of one dimension: equal sizes, or one of them is 1. *)
Definition broadcast_dim (m n : nat) : option nat :=
  if decide (m = n) then Some m
  else if decide (m = 1) then Some n
  else if decide (n = 1) then Some m
  else None.

Definition bidx (size i : nat) : nat := if decide (size = 1) then 0 else i.

(** An elementwise binary operation with broadcasting ([a + b], [a - b]). *)
Definition binop (f : Qc -> Qc -> Qc) (a b : ndarray) : Res ndarray :=
  match broadcast_dim (nrows a) (nrows b), broadcast_dim (ncols a) (ncols b) with
  | Some r, Some c =>
      Ok (NDArray (r, c)
            (map (fun i => map (fun j =>
                    f (item a (bidx (nrows a) i) (bidx (ncols a) j))
                      (item b (bidx (nrows b) i) (bidx (ncols b) j)))
                  (seq 0 c)) (seq 0 r)))
  | _, _ => Raise (ValueError "operands could not be broadcast together")
  end.

(** A Python scalar combined with an array ([x + a], [0.5 * a]). *)
Definition scalar_op (f : Qc -> Qc -> Qc) (x : Qc) (a : ndarray) : ndarray :=
  NDArray (shape a) (map (map (f x)) (data a)).

(** [np.array(l).reshape(len(l), 1)]: a flat sequence as a column. *)
Definition column_of (l : list Qc) : ndarray :=
  NDArray (length l, 1) (map (fun x => [x]) l).

(** The identity matrix of order [n]. *)
Definition eye (n : nat) : ndarray :=
  NDArray (n, n)
    (map (fun i => map (fun j => if decide (i = j) then 1%Qc else 0%Qc) (seq 0 n))
         (seq 0 n)).

End np.

#[global] Instance ndarray_eq_dec : EqDecision np.ndarray.
Proof. solve_decision. Defined.
#[global] Instance exn_eq_dec : EqDecision exn.
Proof. solve_decision. Defined.
#[global] Instance Res_eq_dec {A} `{EqDecision A} : EqDecision (Res A).
Proof. solve_decision. Defined.

(** [np.array(l).reshape(r, 1)] *)
Definition reshape_column (l : list Qc) (r : nat) : Res np.ndarray :=
  if decide (length l = r) then Ok (np.column_of l)
  else Raise (ValueError "cannot reshape array").

(** ** Python primitives *)

(** [l.index(x)]: the position of the first occurrence of [x]; a ValueError
    when [x] does not occur (its message quotes [x]; it is abbreviated
    here). *)
Fixpoint index (x : string) (l : list string) : Res nat :=
  match l with
  | [] => Raise (ValueError "x is not in list")
  | y :: l' => if decide (x = y) then Ok 0 else S <$> index x l'
  end.

(** [l[i]] *)
Definition getitem (l : list string) (i : nat) : Res string :=
  match l !! i with
  | Some x => Ok x
  | None => Raise (IndexError "list index out of range")
  end.

(** The order of Python on tuples (int, float): the first components decide
    unless they are equal. *)
Definition tuple_lt (p q : nat * Qc) : bool :=
  if decide (p.1 = q.1) then bool_decide (p.2 < q.2)%Qc
  else bool_decide (p.1 < q.1).

Fixpoint insert_sorted (p : nat * Qc) (l : list (nat * Qc)) : list (nat * Qc) :=
  match l with
  | [] => [p]
  | q :: l' => if tuple_lt q p then q :: insert_sorted p l' else p :: l
  end.

(** [sorted(l)]: a stable sort, here by insertion. *)
Definition sorted (l : list (nat * Qc)) : list (nat * Qc) :=
  fold_right insert_sorted [] l.

(** ** The data of a factor *)

Definition loc : Type := nat.

(** [g] is stored as it is given: a Python number, or an array. *)
Inductive gval : Type :=
| GScalar (x : Qc)
| GArray (a : np.ndarray).

(** Modelled from the spec: the class [JointGaussianDistribution] is not part
    of the sources; it is "constructed from (scope, mean, covariance)". *)
Record JointGaussianDistribution : Type := JGD {
  jgd_variables : list string;
  mean : np.ndarray;
  covariance : np.ndarray
}.

(** A density function: one the caller supplied (an opaque callable, named by
    a number), or the [pdf] of a moment-form Gaussian. *)
Inductive pdf_val : Type :=
| UserPdf (id : nat)
| GaussianPdf (jgd : JointGaussianDistribution).

Record CanonicalFactor : Type := Factor {
  variables : list string;
  K : loc;
  h : loc;
  g : gval;
  pdf : option pdf_val
}.

#[global] Instance gval_eq_dec : EqDecision gval.
Proof. solve_decision. Defined.
#[global] Instance JGD_eq_dec : EqDecision JointGaussianDistribution.
Proof. solve_decision. Defined.
#[global] Instance pdf_val_eq_dec : EqDecision pdf_val.
Proof. solve_decision. Defined.
#[global] Instance CanonicalFactor_eq_dec : EqDecision CanonicalFactor.
Proof. solve_decision. Defined.

(** ** The store *)

Record heap : Type := Heap {
  arrays : gmap loc np.ndarray;
  objects : gmap loc CanonicalFactor
}.

(** A computation reads and writes the store and returns or raises; the
    writes made before an exception stay. *)
Definition M (A : Type) : Type := heap -> Res A * heap.

#[global] Instance M_ret : MRet M := fun A a σ => (Ok a, σ).
#[global] Instance M_bind : MBind M :=
  fun A B k m σ =>
    match m σ with (Ok a, σ') => k a σ' | (Raise e, σ') => (Raise e, σ') end.

Definition raise {A} (e : exn) : M A := fun σ => (Raise e, σ).

Definition lift {A} (r : Res A) : M A :=
  fun σ => (r, σ).

Definition read_array (l : loc) : M np.ndarray :=
  fun σ => match arrays σ !! l with
           | Some a => (Ok a, σ)
           | None => (Raise DanglingReference, σ)
           end.

Definition alloc_array (a : np.ndarray) : M loc :=
  fun σ => let l := fresh (dom (arrays σ)) in
           (Ok l, Heap (<[l := a]> (arrays σ)) (objects σ)).

(** [a[i, j] = x], an in-place write into the storage of an array. *)
Definition setitem (l : loc) (i j : nat) (x : Qc) : M unit :=
  fun σ => match arrays σ !! l with
           | Some a =>
               if (i <? np.nrows a) && (j <? np.ncols a)
               then (Ok tt, Heap (<[l := np.NDArray (np.shape a)
                                         (alter (fun r => <[j := x]> r) i (np.data a))]>
                                    (arrays σ)) (objects σ))
               else (Raise (IndexError "index is out of bounds"), σ)
           | None => (Raise DanglingReference, σ)
           end.

Definition read_object (r : loc) : M CanonicalFactor :=
  fun σ => match objects σ !! r with
           | Some f => (Ok f, σ)
           | None => (Raise DanglingReference, σ)
           end.

Definition new_object (f : CanonicalFactor) : M loc :=
  fun σ => let r := fresh (dom (objects σ)) in
           (Ok r, Heap (arrays σ) (<[r := f]> (objects σ))).

Definition write_object (r : loc) (f : CanonicalFactor) : M unit :=
  fun σ => (Ok tt, Heap (arrays σ) (<[r := f]> (objects σ))).

(** The attribute assignments [r.variables = v], [r.K = l], ... *)
Definition set_variables (r : loc) (v : list string) : M unit :=
  f ← read_object r; write_object r (Factor v (K f) (h f) (g f) (pdf f)).
Definition set_K (r : loc) (l : loc) : M unit :=
  f ← read_object r; write_object r (Factor (variables f) l (h f) (g f) (pdf f)).
Definition set_h (r : loc) (l : loc) : M unit :=
  f ← read_object r; write_object r (Factor (variables f) (K f) l (g f) (pdf f)).
Definition set_g (r : loc) (x : gval) : M unit :=
  f ← read_object r; write_object r (Factor (variables f) (K f) (h f) x (pdf f)).
Definition set_pdf (r : loc) (p : option pdf_val) : M unit :=
  f ← read_object r; write_object r (Factor (variables f) (K f) (h f) (g f) p).

(** [a.copy()] *)
Definition array_copy (l : loc) : M loc :=
  a ← read_array l; alloc_array a.

(** ** Arguments of the constructor

    [K] and [h] are "array-like": a flat Python sequence, a nested sequence,
    or a two-dimensional float array that exists already. *)
Inductive array_like : Type :=
| PyFlat (l : list Qc)
| PyNested (rows : list (list Qc))
| NdArray (l : loc).

(** The shape numpy gives a sequence: one-dimensional, two-dimensional, or
    none when the rows have different lengths. *)
Inductive seq_shape : Type :=
| Shape1 (n : nat)
| Shape2 (r c : nat)
| Ragged.

Definition nested_shape (rows : list (list Qc)) : seq_shape :=
  match rows with
  | [] => Shape1 0
  | r :: rs =>
      if forallb (fun r' => length r' =? length r) rs
      then Shape2 (length rows) (length r)
      else Ragged
  end.

(** [len(x)] *)
Definition len (x : array_like) : M nat :=
  match x with
  | PyFlat l => mret (length l)
  | PyNested rows => mret (length rows)
  | NdArray l => a ← read_array l; mret (np.nrows a)
  end.

(** [np.asarray(np.reshape(x, (n, 1)), dtype=float)].  The reshape of an
    array is a view: an array that has the shape (n, 1) already keeps its
    storage.  (After the check [len(x) == n] the only other arrays of n
    entries are the empty ones, which have no storage to share.) *)
Definition reshape_to_column (x : array_like) (n : nat) : M loc :=
  match x with
  | PyFlat l => a ← lift (reshape_column l n); alloc_array a
  | PyNested rows =>
      match nested_shape rows with
      | Ragged => raise (ValueError "setting an array element with a sequence")
      | _ => a ← lift (reshape_column (concat rows) n); alloc_array a
      end
  | NdArray l =>
      a ← read_array l;
      if decide (np.shape a = (n, 1)) then mret l
      else a' ← lift (reshape_column (concat (np.data a)) n); alloc_array a'
  end.

(** [np.asarray(x, dtype=float)]: [None] stands for a one-dimensional
    result; a float array is returned as it is, without a copy. *)
Definition asarray (x : array_like) : M (option loc) :=
  match x with
  | PyFlat l => mret None
  | PyNested rows =>
      match nested_shape rows with
      | Shape1 _ => mret None
      | Shape2 r c => l ← alloc_array (np.NDArray (r, c) rows); mret (Some l)
      | Ragged => raise (ValueError "setting an array element with a sequence")
      end
  | NdArray l => _ ← read_array l; mret (Some l)
  end.

(** ** The class *)

(** [np.linalg.inv] is numpy's: the class is stated over any function that
    plays its part; [gauss_jordan] below is one. *)
Class LinAlg : Type := {
  linalg_inv : np.ndarray -> Res np.ndarray
}.

(** The value of a call of a density function on arguments.  The density of
    a Gaussian is no rational function of its arguments: the call is kept as
    it is, unevaluated. *)
Inductive density_value : Type :=
| PdfCall (p : pdf_val) (args : list Qc).

(** [CanonicalFactor.__init__(self, variables, K, h, g, pdf=None)].  The
    object is entered into the store when all its attributes are set.

    When the shape of [K] is wrong, the argument [got_shape] of the message
    is [self.covariance.shape]: the class has no attribute [covariance], so
    the evaluation of the message raises an AttributeError.

    Modelled from the spec: [ContinuousFactor.__init__(variables, pdf)], not
    part of the sources, stores the scope and the density function. *)
Definition init (variables : list string) (K h : array_like) (g : gval)
    (pdf : option pdf_val) : M loc :=
  let no_of_var := length variables in
  n ← len h;
  if decide (n ≠ no_of_var)
  then raise (ValueError
         "Length of h parameter vector must be equal to thenumber of variables.")
  else
    self_h ← reshape_to_column h no_of_var;
    self_K ← asarray K;
    match self_K with
    | None =>
        raise (AttributeError "'CanonicalFactor' object has no attribute 'covariance'")
    | Some self_K =>
        a ← read_array self_K;
        if decide (np.shape a ≠ (no_of_var, no_of_var))
        then raise (AttributeError
               "'CanonicalFactor' object has no attribute 'covariance'")
        else new_object (Factor variables self_K self_h g pdf)
    end.

(** [CanonicalFactor.copy(self)].

    Modelled from the spec: [ContinuousFactor.scope], not part of the
    sources, returns the scope of the factor. *)
Definition copy (self : loc) : M loc :=
  f ← read_object self;
  K_copy ← array_copy (K f);
  h_copy ← array_copy (h f);
  copy_factor ← init (variables f) (NdArray K_copy) (NdArray h_copy) (g f) (pdf f);
  _ ← match pdf f with
      | Some p => set_pdf copy_factor (Some p)
      | None => mret tt
      end;
  mret copy_factor.

(** [CanonicalFactor.to_joint_gaussian(self)] *)
Definition to_joint_gaussian `{LinAlg} (self : loc) : M JointGaussianDistribution :=
  f ← read_object self;
  self_K ← read_array (K f);
  self_h ← read_array (h f);
  covariance ← lift (linalg_inv self_K);
  mean ← lift (np.dot covariance self_h);
  mret (JGD (variables f) mean covariance).

(** [CanonicalFactor.assignment(self, *args)].

    Modelled from the spec: [ContinuousFactor.assignment], not part of the
    sources, evaluates the bound density function at the given point. *)
Definition assignment `{LinAlg} (self : loc) (args : list Qc) : M density_value :=
  f ← read_object self;
  _ ← match pdf f with
      | None => jgd ← to_joint_gaussian self; set_pdf self (Some (GaussianPdf jgd))
      | Some _ => mret tt
      end;
  f ← read_object self;
  match pdf f with
  | Some p => mret (PdfCall p args)
  | None => raise (TypeError "'NoneType' object is not callable")
  end.

(** The argument [values] of [reduce]: a list of pairs (variable, value), or
    an object that is no list. *)
Inductive py_values : Type :=
| PyList (values : list (string * Qc))
| NotAList.

(** [self.g + a] for the array [a]. *)
Definition g_plus (g : gval) (a : np.ndarray) : Res np.ndarray :=
  match g with
  | GScalar x => Ok (np.scalar_op Qcplus x a)
  | GArray ga => np.binop Qcplus ga a
  end.

(** The new attributes [reduce] computes. *)
Record reduced : Type := Reduced {
  new_variables : list string;
  new_K : np.ndarray;
  new_h : np.ndarray;
  new_g : np.ndarray
}.

(** What [reduce] computes before it writes (lines 249 to 266): the two
    lists of positions, the blocks of [K] and [h], and the observations. *)
Record blocks : Type := Blocks {
  index_to_keep : list nat;
  index_to_reduce : list nat;
  K_i_i : np.ndarray;
  K_i_j : np.ndarray;
  K_j_j : np.ndarray;
  h_i : np.ndarray;
  h_j : np.ndarray;
  y : np.ndarray
}.

Definition reduce_blocks (variables : list string) (K h : np.ndarray)
    (values : list (string * Qc)) : Res blocks :=
  let var_to_reduce := values.*1 in
  index_to_keep ←
    mapM (fun var => index var variables)
         (filter (fun var => var ∉ var_to_reduce) variables);
  index_to_reduce ← mapM (fun var => index var variables) var_to_reduce;
  K_i_i ← np.ix_ K index_to_keep index_to_keep;
  K_i_j ← np.ix_ K index_to_keep index_to_reduce;
  K_j_j ← np.ix_ K index_to_reduce index_to_reduce;
  h_i ← np.take h index_to_keep;
  h_j ← np.take h index_to_reduce;
  pairs ← mapM (fun p => i ← index p.1 variables; mret (i, p.2)) values;
  y ← reshape_column (sorted pairs).*2 (length index_to_reduce);
  mret (Blocks index_to_keep index_to_reduce K_i_i K_i_j K_j_j h_i h_j y).

(** [[self.variables[index] for index in index_to_keep]] *)
Definition reduced_variables (variables : list string) (b : blocks) : Res (list string) :=
  mapM (getitem variables) (index_to_keep b).

(** [h_i - np.dot(K_i_j, y)] *)
Definition reduced_h (b : blocks) : Res np.ndarray :=
  K_i_j_y ← np.dot (K_i_j b) (y b);
  np.binop Qcminus (h_i b) K_i_j_y.

(** [self.g + np.dot(h_j.T, y) - 0.5 * np.dot(np.dot(y.T, K_j_j), y)] *)
Definition reduced_g (g : gval) (b : blocks) : Res np.ndarray :=
  h_j_y ← np.dot (np.T (h_j b)) (y b);
  g_plus_hy ← g_plus g h_j_y;
  y_K ← np.dot (np.T (y b)) (K_j_j b);
  y_K_y ← np.dot y_K (y b);
  np.binop Qcminus g_plus_hy (np.scalar_op Qcmult (Q2Qc (1 # 2)) y_K_y).

(** [CanonicalFactor.reduce(self, values, inplace=True)]: returns [None]
    when [inplace], the new factor otherwise.  The attributes of [phi] are
    assigned one after the other, as in lines 268 to 272. *)
Definition reduce (self : loc) (values : py_values) (inplace : bool) : M (option loc) :=
  match values with
  | NotAList => raise (TypeError "values: Expected type list or array-like")
  | PyList values =>
      phi ← (if inplace then mret self else copy self);
      f ← read_object self;
      self_K ← read_array (K f);
      self_h ← read_array (h f);
      b ← lift (reduce_blocks (variables f) self_K self_h values);
      variables' ← lift (reduced_variables (variables f) b);
      _ ← set_variables phi variables';
      phi_K ← alloc_array (K_i_i b);
      _ ← set_K phi phi_K;
      h' ← lift (reduced_h b);
      phi_h ← alloc_array h';
      _ ← set_h phi phi_h;
      f ← read_object self;
      g' ← lift (reduced_g (g f) b);
      _ ← set_g phi (GArray g');
      _ ← set_pdf phi None;
      if inplace then mret None else mret (Some phi)
  end.

(** The four right-hand sides together: what [reduce] stores when none of
    them raises. *)
Definition reduce_core (variables : list string) (K h : np.ndarray) (g : gval)
    (values : list (string * Qc)) : Res reduced :=
  b ← reduce_blocks variables K h values;
  variables' ← reduced_variables variables b;
  h' ← reduced_h b;
  g' ← reduced_g g b;
  mret (Reduced variables' (K_i_i b) h' g').

(** ** Views of the store *)

(** The attributes of a factor with the arrays read out of the store. *)
Record attributes : Type := Attributes {
  a_variables : list string;
  a_K : np.ndarray;
  a_h : np.ndarray;
  a_g : gval;
  a_pdf : option pdf_val
}.

Definition attrs (σ : heap) (r : loc) : option attributes :=
  f ← objects σ !! r;
  vK ← arrays σ !! K f;
  vh ← arrays σ !! h f;
  Some (Attributes (variables f) vK vh (g f) (pdf f)).

(** The attributes [reduce] leaves in its target. *)
Definition reduced_attrs (r : reduced) : attributes :=
  Attributes (new_variables r) (new_K r) (new_h r) (GArray (new_g r)) None.

(** The value a factor's [g] stands for, as an array: a scalar is the 1×1
    array of its value. *)
Definition g_array (g : gval) : np.ndarray :=
  match g with
  | GScalar x => np.NDArray (1, 1) [[x]]
  | GArray a => a
  end.

(** What the constructor establishes: the shapes of [K] and [h] agree with
    the number of variables. *)
Definition consistent (a : attributes) : Prop :=
  let n := length (a_variables a) in
  np.wf (a_K a) /\ np.shape (a_K a) = (n, n) /\
  np.wf (a_h a) /\ np.shape (a_h a) = (n, 1) /\
  np.wf (g_array (a_g a)).

(** ** The conditional form, in the words of the specification

    The scope is partitioned into the kept variables and the reduced ones
    (those [values] names); [K] and [h] are partitioned into the blocks of
    the two classes, and the observation vector lists the observed values in
    the order of the scope. *)

(** The entries of [l] at the positions the mask marks. *)
Fixpoint select {A} (mask : list bool) (l : list A) : list A :=
  match mask, l with
  | b :: mask', x :: l' => if b then x :: select mask' l' else select mask' l'
  | _, _ => []
  end.

(** The number of marked positions. *)
Fixpoint popcount (mask : list bool) : nat :=
  match mask with
  | [] => 0
  | b :: mask' => if b then S (popcount mask') else popcount mask'
  end.

Definition reduced_mask (scope : list string) (values : list (string * Qc)) : list bool :=
  map (fun v => bool_decide (v ∈ values.*1)) scope.

Definition kept_mask (scope : list string) (values : list (string * Qc)) : list bool :=
  map (fun v => bool_decide (v ∉ values.*1)) scope.

(** The block of [a] on the marked rows and the marked columns. *)
Definition block (a : np.ndarray) (rmask cmask : list bool) : np.ndarray :=
  np.NDArray (popcount rmask, popcount cmask)
    (map (select cmask) (select rmask (np.data a))).

(** The marked rows of [a], all columns. *)
Definition rows_of (a : np.ndarray) (rmask : list bool) : np.ndarray :=
  np.NDArray (popcount rmask, np.ncols a) (select rmask (np.data a)).

(** The observed values, in the order of the scope. *)
Definition observation (scope : list string) (values : list (string * Qc)) : list Qc :=
  flat_map (fun v => (filter (fun p => p.1 = v) values).*2) scope.

(** Step 5 of the algorithm: [K' = K_kk], [h' = h_k − K_kr · y],
    [g' = g + h_r.T · y − 0.5 · y.T · K_rr · y]. *)
Definition conditional_h (h_k K_kr y : np.ndarray) : Res np.ndarray :=
  K_kr_y ← np.dot K_kr y;
  np.binop Qcminus h_k K_kr_y.

Definition conditional_g (g : gval) (h_r K_rr y : np.ndarray) : Res np.ndarray :=
  h_r_y ← np.dot (np.T h_r) y;
  g_plus_hy ← g_plus g h_r_y;
  y_K ← np.dot (np.T y) K_rr;
  y_K_y ← np.dot y_K y;
  np.binop Qcminus g_plus_hy (np.scalar_op Qcmult (Q2Qc (1 # 2)) y_K_y).

Definition conditional_parameters (g : gval) (kept : list string)
    (K_kk K_kr K_rr h_k h_r y : np.ndarray) : Res reduced :=
  h' ← conditional_h h_k K_kr y;
  g' ← conditional_g g h_r K_rr y;
  mret (Reduced kept K_kk h' g').

Definition conditional_form (scope : list string) (K h : np.ndarray) (g : gval)
    (values : list (string * Qc)) : Res reduced :=
  let keep := kept_mask scope values in
  let red := reduced_mask scope values in
  conditional_parameters g (select keep scope)
    (block K keep keep) (block K keep red) (block K red red)
    (rows_of h keep) (rows_of h red)
    (np.column_of (observation scope values)).

(** The pairs are listed in the relative order of the scope: the names are
    a subsequence of the scope. *)
Fixpoint subsequence (names scope : list string) : bool :=
  match names, scope with
  | [], _ => true
  | _ :: _, [] => false
  | x :: names', v :: scope' =>
      if decide (x = v) then subsequence names' scope' else subsequence names scope'
  end.

(** [g + h.T·y − 0.5·y.T·K·y] over the whole of [K], [h] and the
    observation vector [y]. *)
Definition full_reduction_g (g : gval) (K h : np.ndarray) (y : list Qc) : Res np.ndarray :=
  let y := np.column_of y in
  h_y ← np.dot (np.T h) y;
  g_plus_hy ← g_plus g h_y;
  y_K ← np.dot (np.T y) K;
  y_K_y ← np.dot y_K y;
  np.binop Qcminus g_plus_hy (np.scalar_op Qcmult (Q2Qc (1 # 2)) y_K_y).

(** ** Further views of the store *)

(** The factor [reduce] writes to: [self], or the new factor it returns. *)
Definition target (self : loc) (result : option loc) : loc := default self result.

(** Whether [g] is a Python scalar (and not an array). *)
Definition is_scalar (g : gval) : bool :=
  match g with
  | GScalar _ => true
  | GArray _ => false
  end.

(** Every array of the store has as many rows and columns as its shape
    says. *)
Definition heap_wf (σ : heap) : Prop :=
  forall l a, arrays σ !! l = Some a -> np.wf a.

(** The store [σ'] has every array and every object of [σ], unchanged. *)
Definition extends (σ σ' : heap) : Prop :=
  (forall l a, arrays σ !! l = Some a -> arrays σ' !! l = Some a) /\
  (forall r f, objects σ !! r = Some f -> objects σ' !! r = Some f).

#[global] Instance attributes_eq_dec : EqDecision attributes.
Proof. solve_decision. Defined.
#[global] Instance reduced_eq_dec : EqDecision reduced.
Proof. solve_decision. Defined.
#[global] Instance heap_eq_dec : EqDecision heap.
Proof. solve_decision. Defined.

(** ** An instance of [np.linalg.inv]: Gauss-Jordan elimination, exact

    The rows of [K] are extended by the rows of the identity; every column
    in turn gets a row with a non-zero entry in it as its pivot row, scaled
    to 1 there, and is cleared in all other rows.  No pivot in a column: the
    matrix is singular.

    The instance runs the examples.  It is not numpy's routine, which
    factorises on floats and rounds: no property below supposes that
    [linalg_inv] returns an inverse, or that it raises on a singular
    matrix. *)

Definition entry (row : list Qc) (j : nat) : Qc := nth j row 0%Qc.

Definition find_pivot (col : nat) (rows : list (list Qc)) : option nat :=
  (fun p => col + p.1) <$> list_find (fun row => entry row col ≠ 0%Qc) (drop col rows).

Definition swap_rows (i j : nat) (rows : list (list Qc)) : list (list Qc) :=
  <[i := nth j rows []]> (<[j := nth i rows []]> rows).

Definition eliminate (col : nat) (rows : list (list Qc)) : list (list Qc) :=
  let pivot_row := nth col rows [] in
  let pivot_row := map (Qcmult (/ entry pivot_row col)) pivot_row in
  imap (fun i row =>
          if decide (i = col) then pivot_row
          else zip_with (fun x y => (x - entry row col * y)%Qc) row pivot_row)
       rows.

Definition gauss_jordan_step (col : nat) (rows : list (list Qc)) : option (list (list Qc)) :=
  p ← find_pivot col rows;
  Some (eliminate col (swap_rows col p rows)).

Fixpoint gauss_jordan_loop (cols : list nat) (rows : list (list Qc))
    : option (list (list Qc)) :=
  match cols with
  | [] => Some rows
  | col :: cols' => rows' ← gauss_jordan_step col rows; gauss_jordan_loop cols' rows'
  end.

Definition gauss_jordan (a : np.ndarray) : Res np.ndarray :=
  let n := np.nrows a in
  if decide (np.ncols a ≠ n)
  then Raise (LinAlgError "Last 2 dimensions of the array must be square")
  else
    let augmented := zip_with app (np.data a) (np.data (np.eye n)) in
    match gauss_jordan_loop (seq 0 n) augmented with
    | Some rows => Ok (np.NDArray (n, n) (map (drop n) rows))
    | None => Raise (LinAlgError "Singular matrix")
    end.

#[global] Instance exact_linalg : LinAlg := {| linalg_inv := gauss_jordan |}.

(** ** Auxiliary functions of the proofs *)

(** The position [index] returns, as a total function. *)
Fixpoint find_index (x : string) (l : list string) : nat :=
  match l with
  | [] => 0
  | y :: l' => if decide (x = y) then 0 else S (find_index x l')
  end.

(** The positions a mask marks, counted from [k]. *)
Fixpoint positions (k : nat) (mask : list bool) : list nat :=
  match mask with
  | [] => []
  | b :: mask' => if b then k :: positions (S k) mask' else positions (S k) mask'
  end.

(** The arrays [reduce] gathers, by lists of positions. *)
Definition gather (a : np.ndarray) (rows cols : list nat) : np.ndarray :=
  np.NDArray (length rows, length cols)
    (map (fun i => map (fun j => np.item a i j) cols) rows).

Definition gather_rows (a : np.ndarray) (rows : list nat) : np.ndarray :=
  np.NDArray (length rows, np.ncols a) (map (fun i => nth i (np.data a) []) rows).

(** A strictly increasing list of positions. *)
Fixpoint ascending (l : list nat) : Prop :=
  match l with
  | [] => True
  | i :: l' => Forall (lt i) l' /\ ascending l'
  end.

(** ** The factor of the docstring of [reduce]

    [CanonicalFactor(['X1', 'X2', 'X3'],
                     np.array([[1, -1, 0], [-1, 4, -2], [0, -2, 4]]),
                     np.array([[1], [4], [-1]]), -2)] *)

Definition qz (z : Z) : Qc := Q2Qc (inject_Z z).

Definition example_K : list (list Qc) :=
  [[qz 1; qz (-1); qz 0]; [qz (-1); qz 4; qz (-2)]; [qz 0; qz (-2); qz 4]].

Definition example_h : list (list Qc) := [[qz 1]; [qz 4]; [qz (-1)]].

Definition example_scope : list string := ["X1"; "X2"; "X3"].

Definition empty_heap : heap := Heap ∅ ∅.

Definition example_init : Res loc * heap :=
  init example_scope (PyNested example_K) (PyNested example_h) (GScalar (qz (-2))) None
       empty_heap.

(** The store with the factor [phi] of the docstring, at the reference 0. *)
Definition example_heap : heap := example_init.2.
Definition phi : loc := 0.

Definition example_attrs : attributes :=
  Attributes example_scope (np.NDArray (3, 3) example_K) (np.NDArray (3, 1) example_h)
             (GScalar (qz (-2))) None.

(** The reduction of the docstring: [phi.reduce([('X3', 0.25)])]. *)
Definition example_values : list (string * Qc) := [("X3", Q2Qc (1 # 4))].

Definition example_reduced : attributes :=
  Attributes ["X1"; "X2"]
    (np.NDArray (2, 2) [[qz 1; qz (-1)]; [qz (-1); qz 4]])
    (np.NDArray (2, 1) [[qz 1]; [Q2Qc (9 # 2)]])
    (GArray (np.NDArray (1, 1) [[Q2Qc (-19 # 8)]]))
    None.

(** The same two observations, in the order of the scope and in the other
    order. *)
Definition values_in_order : list (string * Qc) := [("X2", qz 1); ("X3", Q2Qc (1 # 4))].
Definition values_swapped : list (string * Qc) := [("X3", Q2Qc (1 # 4)); ("X2", qz 1)].

(** All three variables observed, in the order of the scope and in another
    order. *)
Definition all_in_order : list (string * Qc) :=
  [("X1", qz 3); ("X2", qz 1); ("X3", Q2Qc (1 # 4))].
Definition all_rotated : list (string * Qc) :=
  [("X2", qz 1); ("X3", Q2Qc (1 # 4)); ("X1", qz 3)].

(** The factor of the docstring of [to_joint_gaussian]:
    [CanonicalFactor(['x1', 'x2'], np.array([[3, -2], [-2, 4]]),
                     np.array([[5], [-1]]), 1)] *)
Definition gaussian_init : Res loc * heap :=
  init ["x1"; "x2"] (PyNested [[qz 3; qz (-2)]; [qz (-2); qz 4]])
       (PyNested [[qz 5]; [qz (-1)]]) (GScalar (qz 1)) None empty_heap.

Definition gaussian_heap : heap := gaussian_init.2.

Definition gaussian_attrs : attributes :=
  Attributes ["x1"; "x2"] (np.NDArray (2, 2) [[qz 3; qz (-2)]; [qz (-2); qz 4]])
             (np.NDArray (2, 1) [[qz 5]; [qz (-1)]]) (GScalar (qz 1)) None.

Definition gaussian_jgd : JointGaussianDistribution :=
  JGD ["x1"; "x2"]
      (np.NDArray (2, 1) [[Q2Qc (9 # 4)]; [Q2Qc (7 # 8)]])
      (np.NDArray (2, 2) [[Q2Qc (1 # 2); Q2Qc (1 # 4)]; [Q2Qc (1 # 4); Q2Qc (3 # 8)]]).

(** ** The rounding discretizer

    [pgmpy/continuous/discretize/rounding.py], class [RoundingDiscretizer].
    Numbers are floats, idealised as rationals; [/] is the true division. *)

(** Exceptions the class [CanonicalFactor] does not meet. *)
Inductive exception : Type :=
| ZeroDivisionError (msg : string)
| KeyError (key : string).

Inductive outcome (A : Type) : Type :=
| Returns (a : A)
| Raises (e : exception).
Arguments Returns {A} a.
Arguments Raises {A} e.

(** [np.arange(start, stop, step)] on floats: the [ceil((stop - start)/step)]
    values [start + i*step], none when that number is not positive; a step
    of zero raises the error of the division. *)
Definition arange (start stop step : Qc) : outcome (list Qc) :=
  if decide (step = 0%Qc) then Raises (ZeroDivisionError "float division by zero")
  else
    let length := Z.to_nat (Qceiling ((stop - start) / step)%Qc) in
    Returns (map (fun i : nat => (start + qz (Z.of_nat i) * step)%Qc) (seq 0 length)).

(** Of the class [ContinuousFactor], which is not among the sources, the
    discretizer uses the method [cdf] only: any function. *)
Record ContinuousFactor : Type := { cdf : Qc -> Qc }.

(** The attributes the methods read; the parent class [BaseDiscretizer],
    not among the sources, sets them. *)
Record RoundingDiscretizer : Type := Discretizer {
  factor : ContinuousFactor;
  frm : Qc;
  to : Qc;
  step : Qc
}.

(** [RoundingDiscretizer.get_discrete_values(self)] *)
Definition get_discrete_values (self : RoundingDiscretizer) : outcome (list Qc) :=
  let discrete_values :=
    [(cdf (factor self) (frm self + step self / qz 2) - cdf (factor self) (frm self))%Qc] in
  match arange (frm self + step self) (to self) (step self) with
  | Raises e => Raises e
  | Returns x =>
      Returns
        (fold_left
           (fun discrete_values i =>
              discrete_values ++
                [(cdf (factor self) (i + step self / qz 2)
                  - cdf (factor self) (i - step self / qz 2))%Qc])
           x discrete_values)
  end.

(** In the words of the docstring of the class: the points
    [frm, frm+step, ...] below [to] (at least the point [frm]), and the
    probability mass of a point. *)
Definition point (self : RoundingDiscretizer) (i : nat) : Qc :=
  (frm self + qz (Z.of_nat i) * step self)%Qc.

Definition points (self : RoundingDiscretizer) : list Qc :=
  let n := Z.to_nat (Z.max 1 (Qceiling ((to self - frm self) / step self)%Qc)) in
  map (point self) (seq 0 n).

Definition point_mass (self : RoundingDiscretizer) (x : Qc) : Qc :=
  if decide (x = frm self)
  then (cdf (factor self) (x + step self / qz 2) - cdf (factor self) x)%Qc
  else (cdf (factor self) (x + step self / qz 2)
        - cdf (factor self) (x - step self / qz 2))%Qc.

Definition nondecreasing (F : Qc -> Qc) : Prop :=
  forall x y, (x <= y)%Qc -> (F x <= F y)%Qc.

(** The distribution of the docstring is the standard normal one; the
    example here is the distribution of a constant 0, discretized on the
    same points: [frm=-3, to=3, step=0.5]. *)
Definition example_discretizer : RoundingDiscretizer :=
  Discretizer {| cdf := fun x => if decide (x < 0)%Qc then 0%Qc else 1%Qc |}
              (qz (-3)) (qz 3) (Q2Qc (1 # 2)).

(** ** The package [pgmpy.estimators]

    [pgmpy/estimators/__init__.py] *)

(** The names the import statements of the module bind, in their order. *)
Definition estimators_namespace : list string :=
  ["BaseEstimator"; "ParameterEstimator"; "StructureEstimator";
   "MaximumLikelihoodEstimator"; "BayesianEstimator"; "StructureScore"; "K2Score";
   "BdeuScore"; "BicScore"; "ExhaustiveSearch"; "HillClimbSearch";
   "ConstraintBasedEstimator"].

(** The list [__all__] of the module.  Python joins adjacent string
    literals, and no comma follows ['ConstraintBasedEstimator']. *)
Definition __all__ : list string :=
  ["BaseEstimator";
   "ParameterEstimator"; "MaximumLikelihoodEstimator"; "BayesianEstimator";
   "StructureEstimator"; "ExhaustiveSearch"; "HillClimbSearch";
   "ConstraintBasedEstimator" +:+ "StructureScore"; "K2Score"; "BdeuScore"; "BicScore"].

(** [from pgmpy.estimators import *]: the names of [__all__] are looked up
    in the module, one after the other; the names bound are returned. *)
Definition import_star (namespace all : list string) : Res (list string) :=
  mapM (fun name =>
          if decide (name ∈ namespace) then Ok name
          else Raise (AttributeError
                 ("module 'pgmpy.estimators' has no attribute '" +:+ name +:+ "'")))
       all.

(* ===================================================================== *)
(** * Properties *)

(** ** The monads *)

Lemma bind_Ok {A B} (m : M A) (k : A -> M B) σ a σ' :
  m σ = (Ok a, σ') -> (m ≫= k) σ = k a σ'.
Proof. intros Hm. unfold mbind, M_bind. by rewrite Hm. Qed.

Lemma bind_Raise {A B} (m : M A) (k : A -> M B) σ e σ' :
  m σ = (Raise e, σ') -> (m ≫= k) σ = (Raise e, σ').
Proof. intros Hm. unfold mbind, M_bind. by rewrite Hm. Qed.

Lemma lift_Ok {A} (r : Res A) a σ : r = Ok a -> lift r σ = (Ok a, σ).
Proof. by intros ->. Qed.

Lemma lift_Raise {A} (r : Res A) e σ : r = Raise e -> lift r σ = (Raise e, σ).
Proof. by intros ->. Qed.

Lemma Res_bind_Ok {A B} (r : Res A) (k : A -> Res B) a :
  r = Ok a -> r ≫= k = k a.
Proof. by intros ->. Qed.

(** ** The store *)

Lemma fresh_array_None (arr : gmap loc np.ndarray) : arr !! fresh (dom arr) = None.
Proof. apply not_elem_of_dom, is_fresh. Qed.

Lemma fresh_object_None (obj : gmap loc CanonicalFactor) : obj !! fresh (dom obj) = None.
Proof. apply not_elem_of_dom, is_fresh. Qed.

Lemma fresh_array_ne (arr : gmap loc np.ndarray) l a :
  arr !! l = Some a -> fresh (dom arr) ≠ l.
Proof. intros Hl Heq. rewrite <- Heq, fresh_array_None in Hl. done. Qed.

Lemma fresh_object_ne (obj : gmap loc CanonicalFactor) r f :
  obj !! r = Some f -> fresh (dom obj) ≠ r.
Proof. intros Hr Heq. rewrite <- Heq, fresh_object_None in Hr. done. Qed.

Lemma read_object_run σ r f :
  objects σ !! r = Some f -> read_object r σ = (Ok f, σ).
Proof. intros Hr. unfold read_object. by rewrite Hr. Qed.

Lemma read_array_run σ l a :
  arrays σ !! l = Some a -> read_array l σ = (Ok a, σ).
Proof. intros Hl. unfold read_array. by rewrite Hl. Qed.

Lemma attrs_Some σ r a :
  attrs σ r = Some a ->
  exists f, objects σ !! r = Some f /\ arrays σ !! K f = Some (a_K a) /\
            arrays σ !! h f = Some (a_h a) /\ a_variables a = variables f /\
            a_g a = g f /\ a_pdf a = pdf f.
Proof.
  unfold attrs. intros Ha.
  destruct (objects σ !! r) as [f|] eqn:Hf; simpl in Ha; [|done].
  destruct (arrays σ !! K f) as [vK|] eqn:HK; simpl in Ha; [|done].
  destruct (arrays σ !! h f) as [vh|] eqn:Hh; simpl in Ha; [|done].
  inversion Ha; subst; simpl. eauto 10.
Qed.

Lemma attrs_intro σ r f vK vh :
  objects σ !! r = Some f -> arrays σ !! K f = Some vK ->
  arrays σ !! h f = Some vh ->
  attrs σ r = Some (Attributes (variables f) vK vh (g f) (pdf f)).
Proof. intros Hf HK Hh. unfold attrs. rewrite Hf. simpl. rewrite HK. simpl. by rewrite Hh. Qed.

(** ** [copy] *)

(** The store after [copy]: two fresh arrays with the contents of [K] and
    [h], and one fresh object that refers to them. *)
Lemma copy_run σ self f vK vh :
  objects σ !! self = Some f ->
  arrays σ !! K f = Some vK ->
  arrays σ !! h f = Some vh ->
  np.shape vK = (length (variables f), length (variables f)) ->
  np.shape vh = (length (variables f), 1) ->
  let lK := fresh (dom (arrays σ)) in
  let arr1 := <[lK := vK]> (arrays σ) in
  let lh := fresh (dom arr1) in
  let c := fresh (dom (objects σ)) in
  copy self σ =
    (Ok c, Heap (<[lh := vh]> arr1)
                (<[c := Factor (variables f) lK lh (g f) (pdf f)]> (objects σ))).
Proof.
  intros Hf HK Hh HsK Hsh lK arr1 lh c.
  assert (HlK : arr1 !! lK = Some vK) by apply lookup_insert_eq.
  assert (Hh1 : arr1 !! h f = Some vh).
  { unfold arr1. rewrite lookup_insert_ne; [done|]. by eapply fresh_array_ne. }
  assert (Hne : lh ≠ lK) by (by eapply fresh_array_ne).
  unfold copy.
  rewrite (bind_Ok _ _ _ _ _ (read_object_run _ _ _ Hf)).
  unfold array_copy.
  rewrite (bind_Ok _ _ σ lK (Heap arr1 (objects σ))).
  2:{ by rewrite (bind_Ok _ _ _ _ _ (read_array_run _ _ _ HK)). }
  rewrite (bind_Ok _ _ _ lh (Heap (<[lh := vh]> arr1) (objects σ))).
  2:{ by rewrite (bind_Ok _ _ _ vh (Heap arr1 (objects σ)));
        [|apply read_array_run]. }
  set (σ2 := Heap (<[lh := vh]> arr1) (objects σ)).
  assert (Hinit : init (variables f) (NdArray lK) (NdArray lh) (g f) (pdf f) σ2 =
                  (Ok c, Heap (<[lh := vh]> arr1)
                           (<[c := Factor (variables f) lK lh (g f) (pdf f)]> (objects σ)))).
  { unfold init, len, reshape_to_column, asarray.
    assert (Hrh : read_array lh σ2 = (Ok vh, σ2)).
    { apply read_array_run. simpl. apply lookup_insert_eq. }
    assert (HrK : read_array lK σ2 = (Ok vK, σ2)).
    { apply read_array_run. simpl. by rewrite lookup_insert_ne. }
    rewrite (bind_Ok _ _ _ (np.nrows vh) σ2) by (by rewrite (bind_Ok _ _ _ _ _ Hrh)).
    unfold np.nrows. rewrite Hsh. simpl.
    destruct (decide (length (variables f) ≠ length (variables f))) as [?|_]; [done|].
    rewrite (bind_Ok _ _ _ lh σ2).
    2:{ rewrite (bind_Ok _ _ _ _ _ Hrh). by rewrite decide_True. }
    rewrite (bind_Ok _ _ _ (Some lK) σ2) by (by rewrite (bind_Ok _ _ _ _ _ HrK)).
    rewrite (bind_Ok _ _ _ _ _ HrK).
    rewrite decide_False by (intros Hn; by apply Hn).
    reflexivity. }
  rewrite (bind_Ok _ _ _ _ _ Hinit).
  destruct (pdf f) as [p|] eqn:Hp.
  - unfold set_pdf.
    erewrite bind_Ok.
    2:{ erewrite bind_Ok; [|apply read_object_run; simpl; apply lookup_insert_eq].
        reflexivity. }
    simpl. unfold mret, M_ret. by rewrite insert_insert_eq.
  - by erewrite bind_Ok.
Qed.

Lemma setitem_frame σ l i j x σ' :
  setitem l i j x σ = (Ok tt, σ') ->
  objects σ' = objects σ /\ forall l', l' ≠ l -> arrays σ' !! l' = arrays σ !! l'.
Proof.
  unfold setitem. intros Hs.
  destruct (arrays σ !! l) as [a|]; [|done].
  destruct ((i <? np.nrows a) && (j <? np.ncols a)); [|done].
  inversion Hs; subst; simpl. split; [done|].
  intros l' Hne. by rewrite lookup_insert_ne.
Qed.

Lemma setitem_in_range σ l a i j x :
  arrays σ !! l = Some a -> i < np.nrows a -> j < np.ncols a ->
  exists σ', setitem l i j x σ = (Ok tt, σ').
Proof.
  intros Hl Hi Hj. unfold setitem. rewrite Hl.
  apply Nat.ltb_lt in Hi, Hj. rewrite Hi, Hj. simpl. eauto.
Qed.

Lemma attrs_frame σ σ' r f :
  objects σ !! r = Some f -> objects σ' !! r = Some f ->
  arrays σ' !! K f = arrays σ !! K f -> arrays σ' !! h f = arrays σ !! h f ->
  attrs σ' r = attrs σ r.
Proof. intros Hf Hf' HK Hh. unfold attrs. rewrite Hf, Hf'. simpl. by rewrite HK, Hh. Qed.

(** C5.  [copy] returns a new factor whose [K] and [h] live in storage of
    their own, allocated by the copy: the contents, the scope, [g] and the
    density function are those of the original, the original is untouched,
    and a write into the copy's [K] or [h] succeeds inside the shape and
    never reaches the attributes of the original. *)
Theorem copy_is_independent σ self a :
  attrs σ self = Some a ->
  consistent a ->
  exists c σ' fo fc,
    copy self σ = (Ok c, σ') /\
    objects σ !! self = Some fo /\ objects σ' !! c = Some fc /\
    objects σ !! c = None /\
    arrays σ !! K fc = None /\ arrays σ !! h fc = None /\
    K fc ≠ K fo /\ h fc ≠ h fo /\ K fc ≠ h fo /\ h fc ≠ K fo /\ K fc ≠ h fc /\
    attrs σ' c = Some a /\
    objects σ' !! self = Some fo /\ attrs σ' self = Some a /\
    (forall l i j x σ'', (l = K fc \/ l = h fc) ->
       setitem l i j x σ' = (Ok tt, σ'') -> attrs σ'' self = Some a) /\
    (forall i j x, i < length (a_variables a) -> j < length (a_variables a) ->
       exists σ'', setitem (K fc) i j x σ' = (Ok tt, σ'')) /\
    (forall i x, i < length (a_variables a) ->
       exists σ'', setitem (h fc) i 0 x σ' = (Ok tt, σ'')).
Proof.
  intros Ha (HwK & HsK & Hwh & Hsh & _).
  destruct (attrs_Some _ _ _ Ha) as (fo & Hfo & HK & Hh & Hv & Hg & Hp).
  rewrite Hv in HsK, Hsh.
  pose proof (copy_run σ self fo _ _ Hfo HK Hh HsK Hsh) as Hrun.
  cbv zeta in Hrun.
  set (lK := fresh (dom (arrays σ))) in *.
  set (arr1 := <[lK := a_K a]> (arrays σ)) in *.
  set (lh := fresh (dom arr1)) in *.
  set (c := fresh (dom (objects σ))) in *.
  set (fc := Factor (variables fo) lK lh (g fo) (pdf fo)).
  assert (HlK : arrays σ !! lK = None) by apply fresh_array_None.
  assert (Hlh1 : arr1 !! lh = None) by apply fresh_array_None.
  assert (HlhK : lh ≠ lK).
  { intros Heq. rewrite Heq in Hlh1. unfold arr1 in Hlh1.
    by rewrite lookup_insert_eq in Hlh1. }
  assert (Hlh : arrays σ !! lh = None).
  { unfold arr1 in Hlh1. by rewrite lookup_insert_ne in Hlh1. }
  assert (Hc : objects σ !! c = None) by apply fresh_object_None.
  assert (Hcs : c ≠ self) by (intros Heq; rewrite Heq in Hc; congruence).
  assert (HKK : lK ≠ K fo) by (intros Heq; rewrite Heq in HlK; congruence).
  assert (HKh : lK ≠ h fo) by (intros Heq; rewrite Heq in HlK; congruence).
  assert (HhK : lh ≠ K fo) by (intros Heq; rewrite Heq in Hlh; congruence).
  assert (Hhh : lh ≠ h fo) by (intros Heq; rewrite Heq in Hlh; congruence).
  set (σ' := Heap (<[lh := a_h a]> arr1) (<[c := fc]> (objects σ))) in *.
  assert (Hself' : objects σ' !! self = Some fo).
  { simpl. by rewrite lookup_insert_ne. }
  assert (HK' : arrays σ' !! K fo = Some (a_K a)).
  { simpl. unfold arr1. by rewrite !lookup_insert_ne. }
  assert (Hh' : arrays σ' !! h fo = Some (a_h a)).
  { simpl. unfold arr1. by rewrite !lookup_insert_ne. }
  assert (Hattrs : attrs σ' self = Some a).
  { rewrite (attrs_intro _ _ _ _ _ Hself' HK' Hh').
    rewrite <- Hv, <- Hg, <- Hp. by destruct a. }
  assert (HcK : arrays σ' !! lK = Some (a_K a)).
  { simpl. unfold arr1. rewrite lookup_insert_ne by done. apply lookup_insert_eq. }
  assert (Hch : arrays σ' !! lh = Some (a_h a)).
  { simpl. apply lookup_insert_eq. }
  assert (Hc' : objects σ' !! c = Some fc) by (simpl; apply lookup_insert_eq).
  assert (Hattrs_c : attrs σ' c = Some a).
  { rewrite (attrs_intro _ _ _ _ _ Hc' HcK Hch). simpl.
    rewrite <- Hv, <- Hg, <- Hp. by destruct a. }
  exists c, σ', fo, fc. split_and!; try done.
  - intros l i j x σ'' Hl Hset.
    destruct (setitem_frame _ _ _ _ _ _ Hset) as [Hobj Harr].
    rewrite <- Hattrs. apply (attrs_frame _ _ _ fo); [done| by rewrite Hobj | |];
      apply Harr; destruct Hl as [-> | ->]; simpl; by apply not_eq_sym.
  - intros i j x Hi Hj. apply (setitem_in_range _ _ _ _ _ _ HcK).
    + unfold np.nrows. rewrite HsK. simpl. by rewrite <- Hv.
    + unfold np.ncols. rewrite HsK. simpl. by rewrite <- Hv.
  - intros i x Hi. apply (setitem_in_range _ _ _ _ _ _ Hch).
    + unfold np.nrows. rewrite Hsh. simpl. by rewrite <- Hv.
    + unfold np.ncols. rewrite Hsh. simpl. lia.
Qed.

(** ** [reduce] and the store *)

Lemma set_variables_run σ r f v :
  objects σ !! r = Some f ->
  set_variables r v σ =
    (Ok tt, Heap (arrays σ) (<[r := Factor v (K f) (h f) (g f) (pdf f)]> (objects σ))).
Proof. intros Hr. unfold set_variables. by rewrite (bind_Ok _ _ _ _ _ (read_object_run _ _ _ Hr)). Qed.

Lemma set_K_run σ r f l :
  objects σ !! r = Some f ->
  set_K r l σ =
    (Ok tt, Heap (arrays σ) (<[r := Factor (variables f) l (h f) (g f) (pdf f)]> (objects σ))).
Proof. intros Hr. unfold set_K. by rewrite (bind_Ok _ _ _ _ _ (read_object_run _ _ _ Hr)). Qed.

Lemma set_h_run σ r f l :
  objects σ !! r = Some f ->
  set_h r l σ =
    (Ok tt, Heap (arrays σ) (<[r := Factor (variables f) (K f) l (g f) (pdf f)]> (objects σ))).
Proof. intros Hr. unfold set_h. by rewrite (bind_Ok _ _ _ _ _ (read_object_run _ _ _ Hr)). Qed.

Lemma set_g_run σ r f x :
  objects σ !! r = Some f ->
  set_g r x σ =
    (Ok tt, Heap (arrays σ) (<[r := Factor (variables f) (K f) (h f) x (pdf f)]> (objects σ))).
Proof. intros Hr. unfold set_g. by rewrite (bind_Ok _ _ _ _ _ (read_object_run _ _ _ Hr)). Qed.

Lemma set_pdf_run σ r f p :
  objects σ !! r = Some f ->
  set_pdf r p σ =
    (Ok tt, Heap (arrays σ) (<[r := Factor (variables f) (K f) (h f) (g f) p]> (objects σ))).
Proof. intros Hr. unfold set_pdf. by rewrite (bind_Ok _ _ _ _ _ (read_object_run _ _ _ Hr)). Qed.

(** The store after [reduce], from the store [σ1] in which the target [phi]
    has been chosen ([self], or a copy of it): two fresh arrays hold the new
    [K] and [h], and the target has all five attributes replaced. *)
Lemma reduce_run σ self values (inplace : bool) phi σ1 f fphi vK vh r :
  (if inplace then @mret M _ loc self else copy self) σ = (Ok phi, σ1) ->
  objects σ1 !! self = Some f ->
  arrays σ1 !! K f = Some vK ->
  arrays σ1 !! h f = Some vh ->
  objects σ1 !! phi = Some fphi ->
  reduce_core (variables f) vK vh (g f) values = Ok r ->
  let lK := fresh (dom (arrays σ1)) in
  let arr1 := <[lK := new_K r]> (arrays σ1) in
  let lh := fresh (dom arr1) in
  reduce self (PyList values) inplace σ =
    (Ok (if inplace then None else Some phi),
        Heap (<[lh := new_h r]> arr1)
             (<[phi := Factor (new_variables r) lK lh (GArray (new_g r)) None]>
                (objects σ1))).
Proof.
  intros Hphi Hf HK Hh Hfphi Hr lK arr1 lh.
  unfold reduce_core in Hr.
  destruct (reduce_blocks (variables f) vK vh values) as [b|] eqn:Hb; [|done].
  cbn [mbind Res_bind] in Hr.
  destruct (reduced_variables (variables f) b) as [vs|] eqn:Hvs; [|done].
  cbn [mbind Res_bind] in Hr.
  destruct (reduced_h b) as [h'|] eqn:Hh'; [|done]. cbn [mbind Res_bind] in Hr.
  destruct (reduced_g (g f) b) as [g'|] eqn:Hg'; [|done]. cbn [mbind Res_bind] in Hr.
  inversion Hr; subst r; clear Hr. simpl in lK, arr1, lh. simpl.
  unfold reduce.
  rewrite (bind_Ok _ _ _ _ _ Hphi).
  rewrite (bind_Ok _ _ _ _ _ (read_object_run _ _ _ Hf)).
  rewrite (bind_Ok _ _ _ _ _ (read_array_run _ _ _ HK)).
  rewrite (bind_Ok _ _ _ _ _ (read_array_run _ _ _ Hh)).
  rewrite (bind_Ok _ _ _ _ _ (lift_Ok _ _ _ Hb)).
  rewrite (bind_Ok _ _ _ _ _ (lift_Ok _ _ _ Hvs)).
  rewrite (bind_Ok _ _ _ _ _ (set_variables_run _ _ _ _ Hfphi)).
  erewrite (bind_Ok (alloc_array _)); [|reflexivity].
  erewrite (bind_Ok (set_K _ _)); [|apply set_K_run; simpl; apply lookup_insert_eq].
  erewrite (bind_Ok (lift _)); [|apply lift_Ok, Hh'].
  erewrite (bind_Ok (alloc_array _)); [|reflexivity].
  erewrite (bind_Ok (set_h _ _)); [|apply set_h_run; simpl; apply lookup_insert_eq].
  assert (Hself : forall fx, g fx = g fphi ->
            exists f', <[phi := fx]> (objects σ1) !! self = Some f' /\ g f' = g f).
  { intros fx Hfx. destruct (decide (phi = self)) as [->|Hne].
    - exists fx. rewrite lookup_insert_eq. split; [done|]. congruence.
    - exists f. by rewrite lookup_insert_ne. }
  match goal with |- context [set_h phi ?l] => idtac end || idtac.
  simpl. rewrite !insert_insert_eq.
  match goal with |- context [<[phi := ?fx]> (objects σ1)] =>
    destruct (Hself fx eq_refl) as (f' & Hf' & Hgf') end.
  erewrite (bind_Ok (read_object _)); [|apply read_object_run; exact Hf'].
  rewrite Hgf'.
  erewrite (bind_Ok (lift _)); [|apply lift_Ok, Hg'].
  erewrite (bind_Ok (set_g _ _)); [|apply set_g_run; simpl; apply lookup_insert_eq].
  erewrite (bind_Ok (set_pdf _ _)); [|apply set_pdf_run; simpl; apply lookup_insert_eq].
  simpl. rewrite !insert_insert_eq.
  by destruct inplace.
Qed.

Lemma reduce_raises σ self values (inplace : bool) phi σ1 f vK vh e :
  (if inplace then @mret M _ loc self else copy self) σ = (Ok phi, σ1) ->
  objects σ1 !! self = Some f ->
  arrays σ1 !! K f = Some vK ->
  arrays σ1 !! h f = Some vh ->
  reduce_blocks (variables f) vK vh values = Raise e ->
  reduce self (PyList values) inplace σ = (Raise e, σ1).
Proof.
  intros Hphi Hf HK Hh Hr. unfold reduce.
  rewrite (bind_Ok _ _ _ _ _ Hphi).
  rewrite (bind_Ok _ _ _ _ _ (read_object_run _ _ _ Hf)).
  rewrite (bind_Ok _ _ _ _ _ (read_array_run _ _ _ HK)).
  rewrite (bind_Ok _ _ _ _ _ (read_array_run _ _ _ Hh)).
  by rewrite (bind_Raise _ _ _ _ _ (lift_Raise _ _ _ Hr)).
Qed.

Lemma attrs_of_target (arr : gmap loc np.ndarray) (obj : gmap loc CanonicalFactor) phi r :
  let lK := fresh (dom arr) in
  let arr1 := <[lK := new_K r]> arr in
  let lh := fresh (dom arr1) in
  attrs (Heap (<[lh := new_h r]> arr1)
              (<[phi := Factor (new_variables r) lK lh (GArray (new_g r)) None]> obj)) phi
  = Some (reduced_attrs r).
Proof.
  intros lK arr1 lh.
  assert (Hne : lh ≠ lK).
  { apply (fresh_array_ne arr1 lK (new_K r)), lookup_insert_eq. }
  apply (attrs_intro _ phi (Factor (new_variables r) lK lh (GArray (new_g r)) None));
    simpl.
  - apply lookup_insert_eq.
  - rewrite (lookup_insert_ne arr1 lh lK) by done. apply lookup_insert_eq.
  - apply lookup_insert_eq.
Qed.

Lemma reduce_inplace_attrs σ self values a r :
  attrs σ self = Some a ->
  reduce_core (a_variables a) (a_K a) (a_h a) (a_g a) values = Ok r ->
  exists σ', reduce self (PyList values) true σ = (Ok None, σ') /\
             attrs σ' self = Some (reduced_attrs r).
Proof.
  intros Ha Hr.
  destruct (attrs_Some _ _ _ Ha) as (f & Hf & HK & Hh & Hv & Hg & Hp).
  rewrite Hv, Hg in Hr.
  eexists. split.
  - exact (reduce_run σ self values true self σ f f _ _ r eq_refl Hf HK Hh Hf Hr).
  - apply attrs_of_target.
Qed.

(** ** Positions in the scope *)

Lemma index_Ok x l : x ∈ l -> index x l = Ok (find_index x l).
Proof.
  induction l as [|y l IH]; intros Hx; [by apply elem_of_nil in Hx|].
  simpl. destruct (decide (x = y)); [done|].
  apply elem_of_cons in Hx as [?|Hx]; [done|]. by rewrite (IH Hx).
Qed.

Lemma index_Raise x l : x ∉ l -> index x l = Raise (ValueError "x is not in list").
Proof.
  induction l as [|y l IH]; intros Hx; [done|].
  simpl. apply not_elem_of_cons in Hx as [Hne Hx].
  destruct (decide (x = y)); [done|]. by rewrite (IH Hx).
Qed.

Lemma find_index_lt x l : x ∈ l -> find_index x l < length l.
Proof.
  induction l as [|y l IH]; intros Hx; [by apply elem_of_nil in Hx|].
  simpl. destruct (decide (x = y)); [lia|].
  apply elem_of_cons in Hx as [?|Hx]; [done|]. specialize (IH Hx). lia.
Qed.

Lemma lookup_find_index x (l : list string) : x ∈ l -> l !! find_index x l = Some x.
Proof.
  induction l as [|y l IH]; intros Hx; [by apply elem_of_nil in Hx|].
  simpl. destruct (decide (x = y)) as [->|]; [done|].
  apply elem_of_cons in Hx as [?|Hx]; [done|]. by apply IH.
Qed.

Lemma mapM_Ok {A B} (f : A -> Res B) (g : A -> B) (l : list A) :
  Forall (fun x => f x = Ok (g x)) l -> mapM f l = Ok (map g l).
Proof.
  induction 1 as [|x l Hx _ IH]; [done|].
  simpl. rewrite Hx. simpl. rewrite IH. done.
Qed.

Lemma mapM_Raise {A B} (f : A -> Res B) (l : list A) x e :
  x ∈ l -> (forall x', x' ∈ l -> f x' = Raise e \/ is_Ok (f x')) -> f x = Raise e ->
  mapM f l = Raise e.
Proof.
  induction l as [|y l IH]; intros Hx Hall Hfx; [by apply elem_of_nil in Hx|].
  simpl. destruct (Hall y) as [Hy|[b Hy]]; [by left| by rewrite Hy|].
  rewrite Hy. simpl.
  apply elem_of_cons in Hx as [->|Hx]; [congruence|].
  rewrite IH; [done|done| |done]. intros x' Hx'. apply Hall. by right.
Qed.

Lemma mapM_index scope (names : list string) :
  Forall (fun v => v ∈ scope) names ->
  mapM (fun var => index var scope) names = Ok (map (fun v => find_index v scope) names).
Proof.
  intros Hall. apply mapM_Ok. rewrite Forall_forall in Hall |- *.
  intros v Hv. apply index_Ok. by apply Hall.
Qed.

Lemma getitem_find_index scope v :
  v ∈ scope -> getitem scope (find_index v scope) = Ok v.
Proof. intros Hv. unfold getitem. by rewrite (lookup_find_index _ _ Hv). Qed.

Lemma mapM_getitem scope (names : list string) :
  Forall (fun v => v ∈ scope) names ->
  mapM (getitem scope) (map (fun v => find_index v scope) names) = Ok names.
Proof.
  induction 1 as [|v names Hv _ IH]; [done|].
  cbn [map mapM]. rewrite (getitem_find_index _ _ Hv). simpl.
  rewrite IH. done.
Qed.

Lemma in_bounds_find_index scope (names : list string) :
  Forall (fun v => v ∈ scope) names ->
  np.in_bounds (length scope) (map (fun v => find_index v scope) names) = true.
Proof.
  intros Hall. unfold np.in_bounds. apply forallb_forall. intros i Hi.
  apply in_map_iff in Hi as (v & <- & Hv).
  apply Nat.ltb_lt, find_index_lt. rewrite Forall_forall in Hall.
  apply Hall. first [done | by apply list_elem_of_In].
Qed.

(** ** Sorting *)

Lemma length_insert_sorted p l : length (insert_sorted p l) = S (length l).
Proof.
  induction l as [|q l IH]; [done|]. simpl.
  destruct (tuple_lt q p); simpl; by rewrite ?IH.
Qed.

Lemma length_sorted l : length (sorted l) = length l.
Proof.
  induction l as [|p l IH]; [done|]. simpl.
  by rewrite length_insert_sorted, IH.
Qed.

(** [reduce_blocks] on names of the scope: the positions [index] finds, the
    blocks gathered at them, and the sorted observations. *)
Lemma reduce_blocks_gather scope K h values :
  np.shape K = (length scope, length scope) ->
  np.shape h = (length scope, 1) ->
  Forall (fun v => v ∈ scope) values.*1 ->
  let ik :=
    map (fun v => find_index v scope) (filter (fun var => var ∉ values.*1) scope) in
  let ir := map (fun v => find_index v scope) values.*1 in
  let pairs := map (fun p => (find_index p.1 scope, p.2)) values in
  reduce_blocks scope K h values =
    Ok (Blocks ik ir (gather K ik ik) (gather K ik ir) (gather K ir ir)
          (gather_rows h ik) (gather_rows h ir) (np.column_of (sorted pairs).*2)).
Proof.
  intros HsK Hsh Hnames ik ir pairs.
  assert (Hkept : Forall (fun v => v ∈ scope) (filter (fun var => var ∉ values.*1) scope)).
  { apply Forall_forall. intros v Hv.
    by apply list_elem_of_In, list_elem_of_filter in Hv as [_ ?]. }
  unfold reduce_blocks.
  rewrite (mapM_index _ _ Hkept). simpl.
  rewrite (mapM_index _ _ Hnames). simpl.
  fold ik ir.
  assert (Hbk : np.in_bounds (length scope) ik = true)
    by (by apply in_bounds_find_index).
  assert (Hbr : np.in_bounds (length scope) ir = true)
    by (by apply in_bounds_find_index).
  unfold np.ix_, np.take, np.nrows, np.ncols. rewrite HsK, Hsh. simpl.
  rewrite Hbk, Hbr. simpl.
  rewrite (mapM_Ok _ (fun p => (find_index p.1 scope, p.2))).
  2:{ apply Forall_forall. intros p Hp.
      rewrite index_Ok; [done|].
      rewrite Forall_forall in Hnames. apply Hnames.
      apply in_map_iff. by exists p. }
  simpl. fold pairs.
  unfold reshape_column.
  rewrite decide_True.
  2:{ unfold ir, pairs.
      rewrite !length_map, length_sorted, !length_map. done. }
  simpl. unfold gather, gather_rows, np.ncols. rewrite Hsh. done.
Qed.

(** [reduce_core] on names of the scope: the formulas of step 5 on the
    gathered blocks. *)
Lemma reduce_core_gather scope K h g values :
  np.shape K = (length scope, length scope) ->
  np.shape h = (length scope, 1) ->
  Forall (fun v => v ∈ scope) values.*1 ->
  let ik :=
    map (fun v => find_index v scope) (filter (fun var => var ∉ values.*1) scope) in
  let ir := map (fun v => find_index v scope) values.*1 in
  let pairs := map (fun p => (find_index p.1 scope, p.2)) values in
  reduce_core scope K h g values =
    conditional_parameters g (filter (fun var => var ∉ values.*1) scope)
      (gather K ik ik) (gather K ik ir) (gather K ir ir)
      (gather_rows h ik) (gather_rows h ir)
      (np.column_of (sorted pairs).*2).
Proof.
  intros HsK Hsh Hnames ik ir pairs.
  assert (Hkept : Forall (fun v => v ∈ scope) (filter (fun var => var ∉ values.*1) scope)).
  { apply Forall_forall. intros v Hv.
    by apply list_elem_of_In, list_elem_of_filter in Hv as [_ ?]. }
  unfold reduce_core.
  rewrite (reduce_blocks_gather _ _ _ _ HsK Hsh Hnames). cbn [mbind Res_bind].
  unfold reduced_variables. cbn [index_to_keep].
  rewrite (mapM_getitem _ _ Hkept). cbn [mbind Res_bind].
  reflexivity.
Qed.

(** ** The formulas of step 5 never fail on blocks of matching shapes *)

Lemma broadcast_dim_refl m : np.broadcast_dim m m = Some m.
Proof. unfold np.broadcast_dim. by rewrite decide_True. Qed.

Lemma broadcast_dim_1 m : np.broadcast_dim m 1 = Some m.
Proof.
  unfold np.broadcast_dim. repeat case_decide; congruence.
Qed.

Lemma dot_shape a b k m n :
  np.shape a = (k, m) -> np.shape b = (m, n) ->
  exists c, np.dot a b = Ok c /\ np.shape c = (k, n).
Proof.
  intros Ha Hb. unfold np.dot, np.nrows, np.ncols. rewrite Ha, Hb. simpl.
  rewrite decide_True by done. eauto.
Qed.

Lemma binop_shape_1 f a b :
  np.shape b = (1, 1) ->
  exists c, np.binop f a b = Ok c /\ np.shape c = np.shape a.
Proof.
  intros Hb. unfold np.binop, np.nrows, np.ncols. rewrite Hb. simpl.
  rewrite !broadcast_dim_1. eexists; split; [done|]. simpl. by destruct (np.shape a).
Qed.

Lemma g_plus_shape g a :
  np.shape a = (1, 1) ->
  exists c, g_plus g a = Ok c /\ np.shape c = np.shape (g_array g).
Proof.
  intros Ha. destruct g as [x|ga]; simpl.
  - eexists; split; [done|]. done.
  - by apply binop_shape_1.
Qed.

Lemma binop_wf f a b c : np.binop f a b = Ok c -> np.wf c.
Proof.
  unfold np.binop. intros Hc.
  destruct (np.broadcast_dim (np.nrows a) (np.nrows b)) as [m|]; [|done].
  destruct (np.broadcast_dim (np.ncols a) (np.ncols b)) as [n|]; [|done].
  inversion Hc; subst. split; simpl.
  - by rewrite length_map, length_seq.
  - apply Forall_forall. intros row Hrow. apply in_map_iff in Hrow as (i & <- & _).
    by rewrite length_map, length_seq.
Qed.

Lemma gather_wf a rows cols : np.wf (gather a rows cols).
Proof.
  split; simpl.
  - by rewrite length_map.
  - apply Forall_forall. intros row Hrow. apply in_map_iff in Hrow as (i & <- & _).
    by rewrite length_map.
Qed.

Lemma conditional_parameters_Ok g kept K_kk K_kr K_rr h_k h_r y k r :
  np.shape K_kr = (k, r) -> np.shape K_rr = (r, r) ->
  np.shape h_k = (k, 1) -> np.shape h_r = (r, 1) -> np.shape y = (r, 1) ->
  exists h' g',
    conditional_parameters g kept K_kk K_kr K_rr h_k h_r y =
      Ok (Reduced kept K_kk h' g') /\
    np.shape h' = (k, 1) /\ np.shape g' = np.shape (g_array g) /\
    np.wf h' /\ np.wf g'.
Proof.
  intros HKkr HKrr Hhk Hhr Hy.
  unfold conditional_parameters, conditional_h, conditional_g.
  destruct (dot_shape K_kr y k r 1 HKkr Hy) as (c1 & -> & Hc1). simpl.
  assert (Hb : exists h', np.binop Qcminus h_k c1 = Ok h' /\ np.shape h' = (k, 1)).
  { unfold np.binop, np.nrows, np.ncols. rewrite Hhk, Hc1. simpl.
    rewrite !broadcast_dim_refl. eauto. }
  destruct Hb as (h' & Hbh & Hh'). rewrite Hbh. simpl.
  assert (HT : np.shape (np.T h_r) = (1, r)).
  { unfold np.T, np.nrows, np.ncols. by rewrite Hhr. }
  destruct (dot_shape (np.T h_r) y 1 r 1 HT Hy) as (c2 & -> & Hc2). simpl.
  destruct (g_plus_shape g c2 Hc2) as (c3 & -> & Hc3). simpl.
  assert (HTy : np.shape (np.T y) = (1, r)).
  { unfold np.T, np.nrows, np.ncols. by rewrite Hy. }
  destruct (dot_shape (np.T y) K_rr 1 r r HTy HKrr) as (c4 & -> & Hc4). simpl.
  destruct (dot_shape c4 y 1 r 1 Hc4 Hy) as (c5 & -> & Hc5). simpl.
  destruct (binop_shape_1 Qcminus c3 (np.scalar_op Qcmult (Q2Qc (1 # 2)) c5))
    as (c6 & Hbg & Hc6); [done|]. rewrite Hbg. simpl.
  exists h', c6. split_and!; [done|done|congruence|by eapply binop_wf..].
Qed.

(** [reduce_core] returns whenever [values] names variables of the scope:
    the new scope is the kept variables, the new [K] is square of their
    number, the new [h] is a column, and the new [g] is an array of the
    shape of the old [g] (1×1 for a scalar). *)
Lemma reduce_core_total scope K h g values :
  np.shape K = (length scope, length scope) ->
  np.shape h = (length scope, 1) ->
  Forall (fun v => v ∈ scope) values.*1 ->
  exists r, reduce_core scope K h g values = Ok r /\
    new_variables r = filter (fun var => var ∉ values.*1) scope /\
    np.shape (new_K r) = (length (new_variables r), length (new_variables r)) /\
    np.shape (new_h r) = (length (new_variables r), 1) /\
    np.shape (new_g r) = np.shape (g_array g) /\
    np.wf (new_K r) /\ np.wf (new_h r) /\ np.wf (new_g r).
Proof.
  intros HsK Hsh Hnames.
  rewrite (reduce_core_gather _ _ _ _ _ HsK Hsh Hnames).
  set (ik := map _ (filter _ scope)). set (ir := map _ values.*1).
  edestruct (conditional_parameters_Ok g (filter (fun var => var ∉ values.*1) scope)
    (gather K ik ik) (gather K ik ir) (gather K ir ir) (gather_rows h ik)
    (gather_rows h ir)) as (h' & g' & -> & Hh' & Hg' & Hwh' & Hwg').
  - done.
  - done.
  - unfold gather_rows, np.ncols. by rewrite Hsh.
  - unfold gather_rows, np.ncols. by rewrite Hsh.
  - unfold np.column_of. rewrite length_fmap, length_sorted.
    unfold ir. by rewrite !length_map.
  - eexists. split; [done|]. simpl. unfold ik in *. rewrite length_map in Hh'.
    rewrite !length_map. split_and!; try done. apply gather_wf.
Qed.

(** A name outside the scope: the lookup of its position fails. *)
Lemma reduce_blocks_unknown scope K h values :
  ¬ Forall (fun v => v ∈ scope) values.*1 ->
  reduce_blocks scope K h values = Raise (ValueError "x is not in list").
Proof.
  intros Hnot. unfold reduce_blocks.
  assert (Hkept : Forall (fun v => v ∈ scope) (filter (fun var => var ∉ values.*1) scope)).
  { apply Forall_forall. intros v Hv.
    by apply list_elem_of_In, list_elem_of_filter in Hv as [_ ?]. }
  rewrite (mapM_index _ _ Hkept). simpl.
  apply not_Forall_Exists in Hnot; [|apply _].
  apply Exists_exists in Hnot as (v & Hv & Hvs).
  rewrite (mapM_Raise _ _ v (ValueError "x is not in list")); [done| | |].
  - by apply list_elem_of_In.
  - intros x _. destruct (decide (x ∈ scope)).
    + right. eexists. by apply index_Ok.
    + left. by apply index_Raise.
  - by apply index_Raise.
Qed.

(** Two allocations leave the arrays that exist where they are. *)
Lemma lookup_alloc2 (arr : gmap loc np.ndarray) l a x y :
  arr !! l = Some a ->
  <[fresh (dom (<[fresh (dom arr) := x]> arr)) := y]> (<[fresh (dom arr) := x]> arr) !! l
  = Some a.
Proof.
  intros Hl.
  assert (Hl1 : <[fresh (dom arr) := x]> arr !! l = Some a).
  { rewrite lookup_insert_ne; [done|]. by eapply fresh_array_ne. }
  rewrite lookup_insert_ne; [done|]. by eapply fresh_array_ne.
Qed.

(** [reduce] in its two modes, on a consistent factor and names of its
    scope. *)
Lemma reduce_both_modes σ self a values :
  attrs σ self = Some a ->
  consistent a ->
  Forall (fun v => v ∈ a_variables a) values.*1 ->
  exists r,
    reduce_core (a_variables a) (a_K a) (a_h a) (a_g a) values = Ok r /\
    consistent (reduced_attrs r) /\
    np.shape (new_g r) = np.shape (g_array (a_g a)) /\
    (exists phi σ',
       reduce self (PyList values) false σ = (Ok (Some phi), σ') /\
       objects σ !! phi = None /\ phi ≠ self /\
       attrs σ' phi = Some (reduced_attrs r) /\
       objects σ' !! self = objects σ !! self /\
       attrs σ' self = Some a) /\
    (exists σ',
       reduce self (PyList values) true σ = (Ok None, σ') /\
       attrs σ' self = Some (reduced_attrs r)).
Proof.
  intros Ha (HwK & HsK & Hwh & Hsh & Hwg) Hnames.
  destruct (reduce_core_total _ _ _ (a_g a) _ HsK Hsh Hnames)
    as (r & Hr & _ & HsK' & Hsh' & Hsg' & HwK' & Hwh' & Hwg').
  exists r. split; [done|].
  split; [unfold consistent, reduced_attrs; simpl; by split_and!|]. split; [done|].
  split; [|by apply (reduce_inplace_attrs _ _ _ a)].
  destruct (attrs_Some _ _ _ Ha) as (f & Hf & HK & Hh & Hv & Hg & Hp).
  rewrite Hv in HsK, Hsh. rewrite Hv, Hg in Hr.
  pose proof (copy_run σ self f _ _ Hf HK Hh HsK Hsh) as Hcopy. cbv zeta in Hcopy.
  set (c := fresh (dom (objects σ))) in *.
  set (fc := Factor (variables f) _ _ (g f) (pdf f)) in *.
  set (arr2 := <[_ := a_h a]> _) in *.
  set (σ1 := Heap arr2 (<[c := fc]> (objects σ))) in *.
  assert (Hc : objects σ !! c = None) by apply fresh_object_None.
  assert (Hcs : c ≠ self) by (intros Heq; rewrite Heq in Hc; congruence).
  assert (Hf1 : objects σ1 !! self = Some f) by (simpl; by rewrite lookup_insert_ne).
  assert (HK1 : arrays σ1 !! K f = Some (a_K a)).
  { simpl. unfold arr2. by apply (lookup_alloc2 (arrays σ)). }
  assert (Hh1 : arrays σ1 !! h f = Some (a_h a)).
  { simpl. unfold arr2. by apply (lookup_alloc2 (arrays σ)). }
  assert (Hc1 : objects σ1 !! c = Some fc) by (simpl; apply lookup_insert_eq).
  pose proof (reduce_run σ self values false c σ1 f fc _ _ r Hcopy Hf1 HK1 Hh1 Hc1 Hr)
    as Hrun. cbv zeta in Hrun.
  eexists c, _. split; [exact Hrun|]. split_and!; try done.
  - apply attrs_of_target.
  - simpl. rewrite lookup_insert_ne by done. by rewrite lookup_insert_ne.
  - assert (Hobj : forall σ2, objects σ2 !! self = Some f ->
                    arrays σ2 !! K f = Some (a_K a) -> arrays σ2 !! h f = Some (a_h a) ->
                    attrs σ2 self = Some a).
    { intros σ2 H1 H2 H3. rewrite (attrs_intro _ _ _ _ _ H1 H2 H3).
      rewrite <- Hv, <- Hg, <- Hp. by destruct a. }
    apply Hobj; simpl.
    + rewrite lookup_insert_ne by done. by rewrite lookup_insert_ne.
    + by apply (lookup_alloc2 arr2).
    + by apply (lookup_alloc2 arr2).
Qed.

(** C8.  With [inplace=False], [reduce] returns a new factor that carries
    the reduced attributes and leaves the object [self] and the arrays of
    its [K] and [h] as they were (scope, K, h, g and the density function
    alike); with [inplace=True] it returns [None] and [self] itself carries
    the reduced attributes. *)
Theorem reduce_inplace_flag σ self a values :
  attrs σ self = Some a ->
  consistent a ->
  Forall (fun v => v ∈ a_variables a) values.*1 ->
  exists r,
    reduce_core (a_variables a) (a_K a) (a_h a) (a_g a) values = Ok r /\
    (exists phi σ',
       reduce self (PyList values) false σ = (Ok (Some phi), σ') /\
       objects σ !! phi = None /\ phi ≠ self /\
       attrs σ' phi = Some (reduced_attrs r) /\
       objects σ' !! self = objects σ !! self /\
       attrs σ' self = Some a) /\
    (exists σ',
       reduce self (PyList values) true σ = (Ok None, σ') /\
       attrs σ' self = Some (reduced_attrs r)).
Proof.
  intros Ha Hc Hnames.
  destruct (reduce_both_modes σ self a values Ha Hc Hnames)
    as (r & Hr & _ & _ & Hcopy & Hin).
  exists r. by split_and!.
Qed.

(** ** The factor of the docstring *)

Ltac by_compute := apply (bool_decide_unpack _); vm_compute; exact I.

Lemma example_init_Ok : example_init.1 = Ok phi.
Proof. by_compute. Qed.

Lemma example_attrs_eq : attrs example_heap phi = Some example_attrs.
Proof. by_compute. Qed.

Lemma wf_intro shape data :
  (length data =? shape.1) = true ->
  forallb (fun r => length r =? shape.2) data = true ->
  np.wf (np.NDArray shape data).
Proof.
  intros H1 H2. split; simpl.
  - by apply Nat.eqb_eq.
  - apply Forall_forall. intros r Hr. rewrite forallb_forall in H2.
    by apply Nat.eqb_eq, H2.
Qed.

Lemma example_consistent : consistent example_attrs.
Proof. by repeat split; try apply wf_intro. Qed.

Lemma copy_is_independent_witness :
  exists c σ', copy phi example_heap = (Ok c, σ') /\
    attrs σ' c = Some example_attrs /\ attrs σ' phi = Some example_attrs.
Proof.
  destruct (copy_is_independent example_heap phi example_attrs
              example_attrs_eq example_consistent)
    as (c & σ' & fo & fc & Hcopy & _ & _ & _ & _ & _ & _ & _ & _ & _ & _ & Hc & _ & Hs & _).
  by exists c, σ'.
Defined.

Lemma reduce_inplace_flag_witness :
  exists new σ', reduce phi (PyList [("X3", Q2Qc (1 # 4))]) false example_heap
                   = (Ok (Some new), σ') /\
    new ≠ phi /\ attrs σ' phi = Some example_attrs.
Proof.
  destruct (reduce_inplace_flag example_heap phi example_attrs [("X3", Q2Qc (1 # 4))]
              example_attrs_eq example_consistent)
    as (r & _ & (new & σ' & Hred & _ & Hne & _ & _ & Hs) & _).
  { repeat constructor. }
  exists new, σ'. split_and!; [exact Hred|exact Hne|exact Hs].
Defined.

(** ** Positions and masks

    On a scope without repetition, the positions [index] finds are the
    positions the masks mark. *)

Lemma find_index_app x pre suf :
  x ∉ pre -> find_index x (pre ++ x :: suf) = length pre.
Proof.
  induction pre as [|y pre IH]; intros Hx; simpl.
  - by rewrite decide_True.
  - apply not_elem_of_cons in Hx as [Hne Hx].
    rewrite decide_False by done. by rewrite IH.
Qed.

Lemma length_positions k mask : length (positions k mask) = popcount mask.
Proof.
  revert k. induction mask as [|b mask IH]; intros k; [done|].
  destruct b; simpl; by rewrite IH.
Qed.

Lemma positions_filter (P : string -> Prop) `{!forall v, Decision (P v)} pre suf :
  NoDup (pre ++ suf) ->
  map (fun v => find_index v (pre ++ suf)) (filter P suf) =
  positions (length pre) (map (fun v => bool_decide (P v)) suf).
Proof.
  revert pre. induction suf as [|v suf IH]; intros pre Hnd; [done|].
  assert (Hv : v ∉ pre).
  { apply list.NoDup_app in Hnd as (_ & Hdisj & _). intros Hin.
    apply (Hdisj v Hin). by left. }
  assert (Hstep : map (fun w => find_index w (pre ++ v :: suf)) (filter P suf) =
                  positions (S (length pre)) (map (fun w => bool_decide (P w)) suf)).
  { specialize (IH (pre ++ [v])). rewrite <- app_assoc in IH. simpl in IH.
    rewrite IH by done. by rewrite length_app, Nat.add_1_r. }
  simpl. destruct (decide (P v)) as [HP|HP].
  - rewrite filter_cons_True by done. rewrite bool_decide_eq_true_2 by done.
    simpl. by rewrite find_index_app, Hstep.
  - rewrite filter_cons_False by done. rewrite bool_decide_eq_false_2 by done.
    done.
Qed.

Lemma subsequence_nil scope : subsequence [] scope = true.
Proof. by destruct scope. Qed.

Lemma subsequence_elem names scope x :
  subsequence names scope = true -> x ∈ names -> x ∈ scope.
Proof.
  revert names. induction scope as [|v scope IH]; intros names Hsub Hx.
  - destruct names; [by apply elem_of_nil in Hx|done].
  - destruct names as [|y names]; [by apply elem_of_nil in Hx|].
    simpl in Hsub. destruct (decide (y = v)) as [->|Hne].
    + apply elem_of_cons in Hx as [->|Hx]; [by left|]. right. by eapply IH.
    + right. by eapply IH.
Qed.

Lemma positions_ext k (f g : string -> bool) l :
  (forall v, v ∈ l -> f v = g v) -> positions k (map f l) = positions k (map g l).
Proof.
  revert k. induction l as [|v l IH]; intros k Hfg; [done|].
  simpl. rewrite (Hfg v) by (by left).
  rewrite (IH (S k)); [done|]. intros w Hw. apply Hfg. by right.
Qed.

Lemma positions_subsequence names pre suf :
  NoDup (pre ++ suf) ->
  subsequence names suf = true ->
  map (fun v => find_index v (pre ++ suf)) names =
  positions (length pre) (map (fun v => bool_decide (v ∈ names)) suf).
Proof.
  revert names pre. induction suf as [|v suf IH]; intros names pre Hnd Hsub.
  - by destruct names.
  - assert (Hv : v ∉ pre).
    { apply list.NoDup_app in Hnd as (_ & Hdisj & _). intros Hin.
      apply (Hdisj v Hin). by left. }
    assert (Hvs : v ∉ suf).
    { apply list.NoDup_app in Hnd as (_ & _ & Hnd). by apply list.NoDup_cons in Hnd as [? _]. }
    assert (Hstep : forall names', subsequence names' suf = true ->
              map (fun w => find_index w (pre ++ v :: suf)) names' =
              positions (S (length pre)) (map (fun w => bool_decide (w ∈ names')) suf)).
    { intros names' Hsub'. specialize (IH names' (pre ++ [v])).
      rewrite <- app_assoc in IH. simpl in IH.
      rewrite IH by done. by rewrite length_app, Nat.add_1_r. }
    destruct names as [|x names].
    + cbn [map positions].
      rewrite bool_decide_eq_false_2 by apply not_elem_of_nil.
      apply (Hstep [] (subsequence_nil suf)).
    + simpl in Hsub. destruct (decide (x = v)) as [->|Hne].
      * cbn [map positions]. rewrite bool_decide_eq_true_2 by (by left).
        rewrite find_index_app by done. rewrite (Hstep names Hsub).
        f_equal. apply positions_ext. intros w Hw.
        apply bool_decide_ext. rewrite elem_of_cons.
        split; [by right|]. intros [->|?]; [done|done].
      * rewrite (Hstep (x :: names) Hsub). cbn [positions map].
        rewrite bool_decide_eq_false_2; [done|].
        intros Hin. apply Hvs. by eapply subsequence_elem.
Qed.

(** The entries at the marked positions are the selected entries. *)
Lemma nth_positions {A} (d : A) mask pre l :
  length mask = length l ->
  map (fun i => nth i (pre ++ l) d) (positions (length pre) mask) = select mask l.
Proof.
  revert pre l. induction mask as [|b mask IH]; intros pre l Hlen; [done|].
  destruct l as [|x l]; [done|]. simpl in Hlen.
  assert (Hstep : map (fun i => nth i (pre ++ x :: l) d) (positions (S (length pre)) mask)
                  = select mask l).
  { specialize (IH (pre ++ [x]) l). rewrite <- app_assoc in IH. simpl in IH.
    rewrite length_app, Nat.add_1_r in IH. apply IH. lia. }
  destruct b; simpl; rewrite Hstep; [|done].
  f_equal. rewrite app_nth2 by lia. by rewrite Nat.sub_diag.
Qed.

Lemma nth_positions_0 {A} (d : A) mask l :
  length mask = length l ->
  map (fun i => nth i l d) (positions 0 mask) = select mask l.
Proof. intros Hlen. exact (nth_positions d mask [] l Hlen). Qed.

Lemma select_filter (P : string -> Prop) `{!forall v, Decision (P v)} l :
  select (map (fun v => bool_decide (P v)) l) l = filter P l.
Proof.
  induction l as [|v l IH]; [done|]. simpl. destruct (decide (P v)).
  - rewrite bool_decide_eq_true_2, filter_cons_True by done. by rewrite IH.
  - rewrite bool_decide_eq_false_2, filter_cons_False by done. done.
Qed.

Lemma select_Forall {A} (P : A -> Prop) mask l : Forall P l -> Forall P (select mask l).
Proof.
  revert l. induction mask as [|b mask IH]; intros l Hl; [constructor|].
  destruct l as [|x l]; [constructor|]. inversion Hl; subst.
  destruct b; simpl; [constructor|]; auto.
Qed.

(** The gathered blocks are the blocks of the partition. *)
Lemma gather_block a rmask cmask :
  np.wf a -> length rmask = np.nrows a -> length cmask = np.ncols a ->
  gather a (positions 0 rmask) (positions 0 cmask) = block a rmask cmask.
Proof.
  intros [Hrows Hcols] Hr Hc. unfold gather, block.
  rewrite !length_positions. f_equal.
  unfold np.item.
  transitivity (map (fun row => map (fun j => nth j row 0%Qc) (positions 0 cmask))
                    (map (fun i => nth i (np.data a) []) (positions 0 rmask))).
  { by rewrite map_map. }
  rewrite (nth_positions_0 [] rmask (np.data a)) by congruence.
  apply map_ext_in. intros row Hrow.
  apply (nth_positions_0 0%Qc cmask row).
  assert (Hall : Forall (fun r => length r = np.ncols a) (select rmask (np.data a)))
    by (by apply select_Forall).
  rewrite Forall_forall in Hall. rewrite (Hall row Hrow). done.
Qed.

Lemma gather_rows_of a rmask :
  np.wf a -> length rmask = np.nrows a ->
  gather_rows a (positions 0 rmask) = rows_of a rmask.
Proof.
  intros [Hrows Hcols] Hr. unfold gather_rows, rows_of.
  rewrite length_positions. f_equal.
  apply (nth_positions_0 [] rmask (np.data a)). congruence.
Qed.

(** ** The observation vector *)

Lemma positions_ascending k mask :
  Forall (le k) (positions k mask) /\ ascending (positions k mask).
Proof.
  revert k. induction mask as [|b mask IH]; intros k; [by split|].
  destruct (IH (S k)) as [Hle Hasc]. destruct b; simpl.
  - split_and!; [| |done].
    + constructor; [lia|]. eapply list.Forall_impl; [exact Hle|]. simpl. lia.
    + eapply list.Forall_impl; [exact Hle|]. simpl. lia.
  - split; [|done]. eapply list.Forall_impl; [exact Hle|]. simpl. lia.
Qed.

(** Pairs whose positions increase are sorted already. *)
Lemma sorted_ascending (l : list (nat * Qc)) : ascending l.*1 -> sorted l = l.
Proof.
  induction l as [|p l IH]; [done|]. intros [Hlt Hasc].
  simpl. rewrite (IH Hasc). destruct l as [|q l]; [done|].
  simpl. unfold tuple_lt.
  apply list.Forall_cons in Hlt as [Hpq _]. simpl in Hpq.
  rewrite decide_False by lia. rewrite bool_decide_eq_false_2 by lia. done.
Qed.

Lemma filter_fst_notin (v : string) (values : list (string * Qc)) :
  v ∉ values.*1 -> filter (fun p => p.1 = v) values = [].
Proof.
  induction values as [|p values IH]; [done|]. intros Hv.
  simpl in Hv. apply not_elem_of_cons in Hv as [Hne Hv].
  rewrite filter_cons_False by (by apply not_eq_sym). by apply IH.
Qed.

Lemma observation_nil scope : observation scope [] = [].
Proof. unfold observation. induction scope as [|v scope IH]; [done|]. simpl. done. Qed.

Lemma observation_skip scope p (values : list (string * Qc)) :
  p.1 ∉ scope -> observation scope (p :: values) = observation scope values.
Proof.
  unfold observation. induction scope as [|v scope IH]; [done|]. intros Hp.
  apply not_elem_of_cons in Hp as [Hne Hp]. simpl.
  rewrite filter_cons_False by done. by rewrite IH.
Qed.

(** For pairs listed in the order of a scope without repetition, the
    observation vector is the list of the values as given. *)
Lemma observation_in_order scope (values : list (string * Qc)) :
  NoDup scope -> subsequence values.*1 scope = true ->
  observation scope values = values.*2.
Proof.
  revert values. induction scope as [|v scope IH]; intros values Hnd Hsub.
  - by destruct values.
  - apply list.NoDup_cons in Hnd as [Hv Hnd].
    destruct values as [|[x q] values]; [apply observation_nil|].
    simpl in Hsub. destruct (decide (x = v)) as [->|Hne].
    + change (observation (v :: scope) ((v, q) :: values))
        with ((filter (fun p => p.1 = v) ((v, q) :: values)).*2
              ++ observation scope ((v, q) :: values)).
      rewrite filter_cons_True by done.
      rewrite filter_fst_notin.
      2:{ intros Hin. apply Hv. by eapply subsequence_elem. }
      rewrite observation_skip by done. simpl. by rewrite IH.
    + change (observation (v :: scope) ((x, q) :: values))
        with ((filter (fun p => p.1 = v) ((x, q) :: values)).*2
              ++ observation scope ((x, q) :: values)).
      rewrite filter_fst_notin.
      2:{ intros Hin. apply Hv. by eapply subsequence_elem. }
      simpl. by apply IH.
Qed.

Lemma pairs_fst scope (values : list (string * Qc)) :
  (map (fun p => (find_index p.1 scope, p.2)) values).*1 =
  map (fun v => find_index v scope) values.*1.
Proof. induction values as [|p values IH]; [done|]. simpl. f_equal. exact IH. Qed.

Lemma pairs_snd scope (values : list (string * Qc)) :
  (map (fun p => (find_index p.1 scope, p.2)) values).*2 = values.*2.
Proof. induction values as [|p values IH]; [done|]. simpl. f_equal. exact IH. Qed.

(** ** [reduce] computes the conditional form *)

Lemma reduce_core_conditional scope K h g values :
  np.wf K -> np.shape K = (length scope, length scope) ->
  np.wf h -> np.shape h = (length scope, 1) ->
  NoDup scope -> subsequence values.*1 scope = true ->
  reduce_core scope K h g values = conditional_form scope K h g values.
Proof.
  intros HwK HsK Hwh Hsh Hnd Hsub.
  assert (Hnames : Forall (fun v => v ∈ scope) values.*1).
  { apply Forall_forall. intros v Hv. eapply subsequence_elem; [done|].
    by apply list_elem_of_In. }
  rewrite (reduce_core_gather _ _ _ _ _ HsK Hsh Hnames). unfold conditional_form.
  pose proof (positions_filter (fun var => var ∉ values.*1) [] scope Hnd) as Hkeep.
  pose proof (positions_subsequence values.*1 [] scope Hnd Hsub) as Hred.
  simpl in Hkeep, Hred. rewrite Hkeep, Hred.
  fold (kept_mask scope values). fold (reduced_mask scope values).
  assert (Hlk : length (kept_mask scope values) = length scope)
    by (unfold kept_mask; by rewrite length_map).
  assert (Hlr : length (reduced_mask scope values) = length scope)
    by (unfold reduced_mask; by rewrite length_map).
  rewrite !gather_block, !gather_rows_of
    by (try done; unfold np.nrows, np.ncols; rewrite ?HsK, ?Hsh; done).
  rewrite sorted_ascending.
  2:{ rewrite pairs_fst, Hred. apply positions_ascending. }
  rewrite pairs_snd.
  rewrite observation_in_order by done.
  f_equal. symmetry. apply (select_filter (fun var => var ∉ values.*1)).
Qed.

Lemma reduce_any_mode σ self a values (inplace : bool) :
  attrs σ self = Some a ->
  consistent a ->
  Forall (fun v => v ∈ a_variables a) values.*1 ->
  exists r result σ',
    reduce_core (a_variables a) (a_K a) (a_h a) (a_g a) values = Ok r /\
    reduce self (PyList values) inplace σ = (Ok result, σ') /\
    attrs σ' (target self result) = Some (reduced_attrs r) /\
    consistent (reduced_attrs r) /\
    np.shape (new_g r) = np.shape (g_array (a_g a)).
Proof.
  intros Ha Hc Hnames.
  destruct (reduce_both_modes σ self a values Ha Hc Hnames)
    as (r & Hr & Hc' & Hg & (new & σ1 & Hcopy & _ & _ & Hnew & _) & (σ2 & Hin & Hself)).
  destruct inplace.
  - by exists r, None, σ2.
  - by exists r, (Some new), σ1.
Qed.

Lemma subsequence_Forall names scope :
  subsequence names scope = true -> Forall (fun v => v ∈ scope) names.
Proof.
  intros Hsub. apply Forall_forall. intros v Hv.
  eapply subsequence_elem; [done|]. by apply list_elem_of_In.
Qed.

(** C1.  On a factor over distinct variables, for pairs that name variables
    of the scope in the order of the scope, [reduce] (in place or not) leaves
    in its target the conditional form of the specification: the kept
    variables, [K' = K_kk], [h' = h_k − K_kr·y] and
    [g' = g + h_r.T·y − 0.5·y.T·K_rr·y], with the blocks taken at the
    positions of the original scope and no density function.  On the factor
    of the docstring, [X3 = 0.25] gives the scope [X1, X2],
    [K' = [[1,-1],[-1,4]]], [h' = [1, 4.5]] and [g'] of value [-2.375]. *)
Theorem reduce_conditional_form :
  (forall σ self a values (inplace : bool),
     attrs σ self = Some a ->
     consistent a ->
     NoDup (a_variables a) ->
     subsequence values.*1 (a_variables a) = true ->
     exists r result σ',
       conditional_form (a_variables a) (a_K a) (a_h a) (a_g a) values = Ok r /\
       reduce self (PyList values) inplace σ = (Ok result, σ') /\
       attrs σ' (target self result) = Some (reduced_attrs r)) /\
  (reduce phi (PyList example_values) true example_heap).1 = Ok None /\
  attrs (reduce phi (PyList example_values) true example_heap).2 phi
    = Some example_reduced.
Proof.
  split; [|split; by_compute].
  intros σ self a values inplace Ha Hc Hnd Hsub.
  destruct (reduce_any_mode σ self a values inplace Ha Hc (subsequence_Forall _ _ Hsub))
    as (r & result & σ' & Hr & Hred & Hattrs & _).
  exists r, result, σ'. split; [|done].
  destruct Hc as (HwK & HsK & Hwh & Hsh & _).
  by rewrite <- (reduce_core_conditional _ _ _ _ _ HwK HsK Hwh Hsh Hnd Hsub).
Qed.

Lemma reduce_conditional_form_witness :
  exists r result σ',
    conditional_form example_scope (np.NDArray (3, 3) example_K)
      (np.NDArray (3, 1) example_h) (GScalar (qz (-2))) example_values = Ok r /\
    reduce phi (PyList example_values) false example_heap = (Ok result, σ') /\
    attrs σ' (target phi result) = Some (reduced_attrs r).
Proof.
  apply (proj1 reduce_conditional_form example_heap phi example_attrs example_values false
           example_attrs_eq example_consistent).
  - by_compute.
  - reflexivity.
Defined.

(** ** Masks that mark everything, or nothing *)

Lemma select_all {A} mask (l : list A) :
  Forall (fun b => b = true) mask -> length mask = length l -> select mask l = l.
Proof.
  revert l. induction mask as [|b mask IH]; intros l Hall Hlen.
  - by destruct l.
  - destruct l as [|x l]; [done|]. apply list.Forall_cons in Hall as [-> Hall].
    simpl. rewrite IH; [done|done|]. simpl in Hlen. lia.
Qed.

Lemma select_none {A} mask (l : list A) :
  Forall (fun b => b = false) mask -> select mask l = [].
Proof.
  revert l. induction mask as [|b mask IH]; intros l Hall; [done|].
  destruct l as [|x l]; [done|]. apply list.Forall_cons in Hall as [-> Hall].
  simpl. by apply IH.
Qed.

Lemma popcount_all mask :
  Forall (fun b => b = true) mask -> popcount mask = length mask.
Proof.
  induction 1 as [|b mask -> _ IH]; [done|]. simpl. by rewrite IH.
Qed.

Lemma popcount_none mask : Forall (fun b => b = false) mask -> popcount mask = 0.
Proof. induction 1 as [|b mask -> _ IH]; [done|]. done. Qed.

Lemma block_all a mask :
  np.wf a -> np.shape a = (length mask, length mask) ->
  Forall (fun b => b = true) mask -> block a mask mask = a.
Proof.
  intros [Hrows Hcols] Hs Hall. unfold block.
  unfold np.nrows, np.ncols in *. rewrite Hs in Hrows, Hcols. simpl in *.
  rewrite (popcount_all _ Hall), select_all by done.
  destruct a as [s d]. simpl in *. subst s. f_equal.
  rewrite <- (map_id d) at 2. apply map_ext_in. intros row Hrow.
  apply select_all; [done|]. rewrite Forall_forall in Hcols. by rewrite (Hcols row Hrow).
Qed.

Lemma rows_of_all a mask :
  np.wf a -> np.nrows a = length mask ->
  Forall (fun b => b = true) mask -> rows_of a mask = a.
Proof.
  intros [Hrows Hcols] Hs Hall. unfold rows_of.
  rewrite (popcount_all _ Hall), select_all by congruence.
  destruct a as [[r c] d]. unfold np.nrows, np.ncols in *. simpl in *. by rewrite Hs.
Qed.

Lemma rows_of_none a mask :
  Forall (fun b => b = false) mask -> rows_of a mask = np.NDArray (0, np.ncols a) [].
Proof.
  intros Hnone. unfold rows_of. by rewrite (popcount_none _ Hnone), select_none.
Qed.

Lemma block_none_rows a rmask cmask :
  Forall (fun b => b = false) rmask ->
  block a rmask cmask = np.NDArray (0, popcount cmask) [].
Proof.
  intros Hnone. unfold block. by rewrite (popcount_none _ Hnone), select_none.
Qed.

Lemma kept_mask_nil scope : Forall (fun b => b = true) (kept_mask scope []).
Proof.
  unfold kept_mask. apply Forall_forall. intros b Hb.
  apply in_map_iff in Hb as (v & <- & _).
  apply bool_decide_eq_true_2. simpl. apply not_elem_of_nil.
Qed.

Lemma reduced_mask_nil scope : Forall (fun b => b = false) (reduced_mask scope []).
Proof.
  unfold reduced_mask. apply Forall_forall. intros b Hb.
  apply in_map_iff in Hb as (v & <- & _).
  apply bool_decide_eq_false_2. simpl. apply not_elem_of_nil.
Qed.

(** ** Arithmetic of arrays with a neutral operand *)

Lemma map_nth_seq {A} (d : A) (l : list A) :
  map (fun i => nth i l d) (seq 0 (length l)) = l.
Proof.
  induction l as [|x l IH]; [done|].
  simpl. f_equal. rewrite <- seq_shift, map_map. exact IH.
Qed.

Lemma bidx_lt size i : i < size -> np.bidx size i = i.
Proof. intros Hi. unfold np.bidx. case_decide; lia. Qed.

Lemma data_items a :
  np.wf a ->
  map (fun i => map (fun j => np.item a i j) (seq 0 (np.ncols a))) (seq 0 (np.nrows a))
  = np.data a.
Proof.
  intros [Hrows Hcols]. unfold np.item.
  transitivity (map (fun row => map (fun j => nth j row 0%Qc) (seq 0 (np.ncols a)))
                    (map (fun i => nth i (np.data a) []) (seq 0 (np.nrows a)))).
  { by rewrite map_map. }
  rewrite <- Hrows, map_nth_seq.
  rewrite <- (map_id (np.data a)) at 2. apply map_ext_in. intros row Hrow.
  rewrite Forall_forall in Hcols. rewrite <- (Hcols row Hrow). apply map_nth_seq.
Qed.

(** [a op b] is [a] when every entry of [b] is neutral for [op] and [b]
    broadcasts to the shape of [a]. *)
Lemma binop_neutral f a b :
  np.wf a ->
  np.nrows b = np.nrows a \/ np.nrows b = 1 ->
  np.ncols b = np.ncols a \/ np.ncols b = 1 ->
  (forall x i j, f x (np.item b i j) = x) ->
  np.binop f a b = Ok a.
Proof.
  intros Hwf Hr Hc Hf. unfold np.binop.
  assert (Hbr : np.broadcast_dim (np.nrows a) (np.nrows b) = Some (np.nrows a)).
  { destruct Hr as [->| ->]; [apply broadcast_dim_refl|apply broadcast_dim_1]. }
  assert (Hbc : np.broadcast_dim (np.ncols a) (np.ncols b) = Some (np.ncols a)).
  { destruct Hc as [->| ->]; [apply broadcast_dim_refl|apply broadcast_dim_1]. }
  rewrite Hbr, Hbc. f_equal.
  destruct a as [[r c] d] eqn:Ha. rewrite <- Ha in *. f_equal.
  assert (Hrc : np.nrows a = r /\ np.ncols a = c) by (by rewrite Ha).
  destruct Hrc as [Hra Hca].
  transitivity (np.NDArray (r, c) (np.data a)); [|by rewrite Ha].
  f_equal; [by rewrite Hra, Hca|].
  rewrite <- (data_items a Hwf).
  apply map_ext_in. intros i Hi. apply in_seq in Hi.
  apply map_ext_in. intros j Hj. apply in_seq in Hj.
  rewrite Hf. by rewrite !bidx_lt by lia.
Qed.

Lemma item_zero_rows (rows : list (list Qc)) i j :
  Forall (fun r => r = [0%Qc] \/ r = []) rows ->
  nth j (nth i rows []) 0%Qc = 0%Qc.
Proof.
  intros Hall.
  assert (Hrow : nth i rows [] = [0%Qc] \/ nth i rows [] = []).
  { destruct (nth_in_or_default i rows []) as [Hin| ->]; [|by right].
    rewrite Forall_forall in Hall. by apply Hall. }
  destruct Hrow as [-> | ->]; by destruct j as [|[|j]].
Qed.

Lemma vdot_nil_r r : np.vdot r [] = 0%Qc.
Proof. by destruct r. Qed.

Lemma dot_run a b :
  np.ncols a = np.nrows b ->
  np.dot a b =
    Ok (np.NDArray (np.nrows a, np.ncols b)
          (map (fun r => map (fun j => np.vdot r (np.column b j)) (seq 0 (np.ncols b)))
               (np.data a))).
Proof. intros Hab. unfold np.dot. by rewrite decide_True. Qed.

(** With nothing to reduce, step 5 returns the kept blocks and the value of
    [g], as an array. *)
Lemma conditional_parameters_nothing g kept K_kk K_kr h_k k :
  np.shape K_kr = (k, 0) ->
  np.wf h_k -> np.shape h_k = (k, 1) ->
  np.wf (g_array g) ->
  conditional_parameters g kept K_kk K_kr (np.NDArray (0, 0) []) h_k
    (np.NDArray (0, 1) []) (np.NDArray (0, 1) [])
  = Ok (Reduced kept K_kk h_k (g_array g)).
Proof.
  intros HKkr Hwh Hsh Hwg.
  unfold conditional_parameters, conditional_h, conditional_g.
  rewrite (dot_run K_kr) by (unfold np.ncols; by rewrite HKkr).
  cbn [mbind Res_bind].
  match goal with |- context [np.binop Qcminus h_k ?z] =>
    assert (Hh : np.binop Qcminus h_k z = Ok h_k) end.
  { apply binop_neutral.
    - done.
    - left. unfold np.nrows. simpl. by rewrite Hsh, HKkr.
    - left. unfold np.ncols. simpl. by rewrite Hsh.
    - intros x i j. unfold np.item. simpl. rewrite item_zero_rows; [ring|].
      apply Forall_forall. intros row Hrow. apply in_map_iff in Hrow as (r & <- & _).
      left. unfold np.column. simpl. by rewrite vdot_nil_r. }
  rewrite Hh. cbn [mbind Res_bind].
  assert (Hg : g_plus g (np.NDArray (1, 1) [[0%Qc]]) = Ok (g_array g)).
  { destruct g as [x|ga]; simpl.
    - unfold np.scalar_op. simpl. do 2 f_equal. f_equal. f_equal. ring.
    - apply binop_neutral; [done|by right|by right|].
      intros x i j. unfold np.item. simpl.
      destruct i as [|[|i]], j as [|[|j]]; simpl; ring. }
  change (np.dot (np.T (np.NDArray (0, 1) [])) (np.NDArray (0, 1) []))
    with (Ok (np.NDArray (1, 1) [[0%Qc]])).
  cbn [mbind Res_bind]. rewrite Hg. cbn [mbind Res_bind].
  change (np.dot (np.T (np.NDArray (0, 1) [])) (np.NDArray (0, 0) []))
    with (Ok (np.NDArray (1, 0) [@nil Qc])).
  cbn [mbind Res_bind].
  change (np.dot (np.NDArray (1, 0) [@nil Qc]) (np.NDArray (0, 1) []))
    with (Ok (np.NDArray (1, 1) [[0%Qc]])).
  cbn [mbind Res_bind].
  rewrite binop_neutral; [done|done|by right|by right|].
  intros x i j. unfold np.item. simpl.
  destruct i as [|[|i]], j as [|[|j]]; simpl; ring.
Qed.

Lemma conditional_form_nil scope K h g :
  np.wf K -> np.shape K = (length scope, length scope) ->
  np.wf h -> np.shape h = (length scope, 1) ->
  np.wf (g_array g) ->
  conditional_form scope K h g [] = Ok (Reduced scope K h (g_array g)).
Proof.
  intros HwK HsK Hwh Hsh Hwg. unfold conditional_form.
  pose proof (kept_mask_nil scope) as Hkeep.
  pose proof (reduced_mask_nil scope) as Hred.
  assert (Hlk : length (kept_mask scope []) = length scope)
    by (unfold kept_mask; by rewrite length_map).
  rewrite select_all, block_all, rows_of_all by
    (try done; rewrite ?Hlk; unfold np.nrows; rewrite ?HsK, ?Hsh; done).
  rewrite (block_none_rows K (reduced_mask scope []) (reduced_mask scope [])) by done.
  rewrite (popcount_none _ Hred).
  rewrite (rows_of_none h) by done. unfold np.ncols at 1. rewrite Hsh.
  rewrite observation_nil.
  apply (conditional_parameters_nothing g scope K _ h (length scope)); try done.
  unfold block. simpl. by rewrite (popcount_all _ Hkeep), (popcount_none _ Hred), Hlk.
Qed.

(** C10.  On a factor over distinct variables, [reduce] with the empty list
    succeeds (in place or not) and leaves in its target the same scope, the
    same [K] and [h], and [g] with its value unchanged (as an array: a
    scalar [x] becomes the 1×1 array of [x]); the density function is reset
    to absent, whatever it was. *)
Theorem reduce_empty_values σ self a (inplace : bool) :
  attrs σ self = Some a ->
  consistent a ->
  NoDup (a_variables a) ->
  exists result σ',
    reduce self (PyList []) inplace σ = (Ok result, σ') /\
    attrs σ' (target self result) =
      Some (Attributes (a_variables a) (a_K a) (a_h a) (GArray (g_array (a_g a))) None).
Proof.
  intros Ha Hc Hnd.
  destruct (reduce_any_mode σ self a [] inplace Ha Hc) as
    (r & result & σ' & Hr & Hred & Hattrs & _); [constructor|].
  exists result, σ'. split; [done|]. rewrite Hattrs.
  destruct Hc as (HwK & HsK & Hwh & Hsh & Hwg).
  rewrite (reduce_core_conditional _ _ _ _ _ HwK HsK Hwh Hsh Hnd) in Hr
    by apply subsequence_nil.
  rewrite (conditional_form_nil _ _ _ _ HwK HsK Hwh Hsh Hwg) in Hr.
  by inversion Hr.
Qed.

Lemma reduce_empty_values_witness :
  exists result σ',
    reduce phi (PyList []) true example_heap = (Ok result, σ') /\
    attrs σ' (target phi result) =
      Some (Attributes example_scope (np.NDArray (3, 3) example_K)
              (np.NDArray (3, 1) example_h)
              (GArray (np.NDArray (1, 1) [[qz (-2)]])) None).
Proof.
  apply (reduce_empty_values example_heap phi example_attrs true
           example_attrs_eq example_consistent).
  by_compute.
Defined.

(** ** The order of the pairs *)

(** C2.  [reduce] depends on the order of the pairs.  On the factor of the
    docstring, [X2 = 1] and [X3 = 0.25] listed in the order of the scope
    give [h' = [2]] and [g'] of value [0.125], which is the conditional form
    of the specification; the same two pairs listed the other way round give
    [h' = [1.25]] and [g'] of value [-3.625]: the positions of the reduced
    variables follow the order of [values], the observation vector is sorted
    by position. *)
Theorem reduce_order_dependence :
  attrs (reduce phi (PyList values_in_order) true example_heap).2 phi =
    Some (Attributes ["X1"] (np.NDArray (1, 1) [[qz 1]]) (np.NDArray (1, 1) [[qz 2]])
            (GArray (np.NDArray (1, 1) [[Q2Qc (1 # 8)]])) None) /\
  attrs (reduce phi (PyList values_swapped) true example_heap).2 phi =
    Some (Attributes ["X1"] (np.NDArray (1, 1) [[qz 1]])
            (np.NDArray (1, 1) [[Q2Qc (5 # 4)]])
            (GArray (np.NDArray (1, 1) [[Q2Qc (-29 # 8)]])) None) /\
  conditional_form example_scope (np.NDArray (3, 3) example_K)
    (np.NDArray (3, 1) example_h) (GScalar (qz (-2))) values_swapped =
    Ok (Reduced ["X1"] (np.NDArray (1, 1) [[qz 1]]) (np.NDArray (1, 1) [[qz 2]])
          (np.NDArray (1, 1) [[Q2Qc (1 # 8)]])).
Proof. split_and!; by_compute. Qed.

(** C6.  The full reduction with the pairs in another order than the scope.
    On the factor of the docstring with [X1 = 3], [X2 = 1], [X3 = 0.25]
    listed as X2, X3, X1, [reduce] succeeds and leaves an empty scope, a 0×0
    [K] and a 0×1 [h], but [g'] has the value [-129/32], where
    [g + h.T·y − 0.5·y.T·K·y] over the observation vector [y = (3, 1, 0.25)]
    is [13/8]. *)
Theorem full_reduction_rotated :
  (reduce phi (PyList all_rotated) true example_heap).1 = Ok None /\
  attrs (reduce phi (PyList all_rotated) true example_heap).2 phi =
    Some (Attributes [] (np.NDArray (0, 0) []) (np.NDArray (0, 1) [])
            (GArray (np.NDArray (1, 1) [[Q2Qc (-129 # 32)]])) None) /\
  observation example_scope all_rotated = [qz 3; qz 1; Q2Qc (1 # 4)] /\
  full_reduction_g (GScalar (qz (-2))) (np.NDArray (3, 3) example_K)
    (np.NDArray (3, 1) example_h) [qz 3; qz 1; Q2Qc (1 # 4)] =
    Ok (np.NDArray (1, 1) [[Q2Qc (13 # 8)]]).
Proof. split_and!; by_compute. Qed.

(** ** The full reduction *)

Lemma subsequence_refl scope : subsequence scope scope = true.
Proof. induction scope as [|v scope IH]; [done|]. simpl. by rewrite decide_True. Qed.

Lemma wf_no_rows a c : np.wf a -> np.shape a = (0, c) -> a = np.NDArray (0, c) [].
Proof.
  intros [Hrows _] Hs. destruct a as [s d]. unfold np.nrows in Hrows. simpl in *.
  subst s. simpl in Hrows. by destruct d.
Qed.

Lemma filter_none (P : string -> Prop) `{!forall v, Decision (P v)} (l : list string) :
  (forall v, v ∈ l -> ¬ P v) -> filter P l = [].
Proof.
  induction l as [|v l IH]; intros Hall; [done|].
  rewrite filter_cons_False by (apply Hall; by left).
  apply IH. intros w Hw. apply Hall. by right.
Qed.

(** Every variable is named, in any order: the scope, [K] and [h] that are
    left are empty. *)
Lemma reduce_core_everything scope K h g values :
  np.shape K = (length scope, length scope) ->
  np.shape h = (length scope, 1) ->
  Forall (fun v => v ∈ scope) values.*1 ->
  (forall v, v ∈ scope -> v ∈ values.*1) ->
  exists g', reduce_core scope K h g values =
               Ok (Reduced [] (np.NDArray (0, 0) []) (np.NDArray (0, 1) []) g') /\
             np.shape g' = np.shape (g_array g).
Proof.
  intros HsK Hsh Hnames Hall.
  destruct (reduce_core_total _ _ _ g _ HsK Hsh Hnames)
    as (r & Hr & Hv & HsK' & Hsh' & Hsg' & HwK' & Hwh' & Hwg').
  assert (Hnil : filter (fun var => var ∉ values.*1) scope = []).
  { apply filter_none. intros v Hv' Hn. by apply Hn, Hall. }
  rewrite Hnil in Hv. rewrite Hv in HsK', Hsh'. simpl in *.
  exists (new_g r). split; [|done]. rewrite Hr. f_equal.
  destruct r as [vs K' h' g']. simpl in *. subst vs.
  by rewrite (wf_no_rows K' 0), (wf_no_rows h' 1).
Qed.

Lemma conditional_parameters_everything g K h y :
  np.nrows h = length y ->
  conditional_parameters g [] (np.NDArray (0, 0) []) (np.NDArray (0, length y) []) K
    (np.NDArray (0, 1) []) h (np.column_of y)
  = (g' ← full_reduction_g g K h y;
     Ok (Reduced [] (np.NDArray (0, 0) []) (np.NDArray (0, 1) []) g')).
Proof.
  intros Hh. unfold conditional_parameters, conditional_h.
  rewrite (dot_run (np.NDArray (0, length y) [])) by done.
  cbn [mbind Res_bind np.nrows np.ncols np.shape np.data fst snd map].
  change (np.binop Qcminus (np.NDArray (0, 1) []) _)
    with (Ok (np.NDArray (0, 1) [])).
  cbn [mbind Res_bind]. reflexivity.
Qed.

Lemma kept_mask_all scope (values : list (string * Qc)) :
  values.*1 = scope -> Forall (fun b => b = false) (kept_mask scope values).
Proof.
  intros Hv. unfold kept_mask. apply Forall_forall. intros b Hb.
  apply in_map_iff in Hb as (v & <- & Hin).
  apply bool_decide_eq_false_2. intros Hn. apply Hn. rewrite Hv.
  by apply list_elem_of_In.
Qed.

Lemma reduced_mask_all scope (values : list (string * Qc)) :
  values.*1 = scope -> Forall (fun b => b = true) (reduced_mask scope values).
Proof.
  intros Hv. unfold reduced_mask. apply Forall_forall. intros b Hb.
  apply in_map_iff in Hb as (v & <- & Hin).
  apply bool_decide_eq_true_2. rewrite Hv. by apply list_elem_of_In.
Qed.

Lemma conditional_form_everything scope K h g (values : list (string * Qc)) :
  np.wf K -> np.shape K = (length scope, length scope) ->
  np.wf h -> np.shape h = (length scope, 1) ->
  NoDup scope -> values.*1 = scope ->
  conditional_form scope K h g values =
    (g' ← full_reduction_g g K h values.*2;
     Ok (Reduced [] (np.NDArray (0, 0) []) (np.NDArray (0, 1) []) g')).
Proof.
  intros HwK HsK Hwh Hsh Hnd Hv. unfold conditional_form.
  pose proof (kept_mask_all scope values Hv) as Hkeep.
  pose proof (reduced_mask_all scope values Hv) as Hred.
  assert (Hlr : length (reduced_mask scope values) = length scope)
    by (unfold reduced_mask; by rewrite length_map).
  rewrite (select_none _ _ Hkeep).
  rewrite !(block_none_rows K (kept_mask scope values)) by done.
  rewrite (popcount_none _ Hkeep), (popcount_all _ Hred), Hlr.
  rewrite (rows_of_none h (kept_mask scope values)) by done.
  unfold np.ncols at 1. rewrite Hsh.
  rewrite block_all, (rows_of_all h (reduced_mask scope values)) by
    (try done; rewrite ?Hlr; unfold np.nrows; rewrite ?HsK, ?Hsh; done).
  rewrite observation_in_order by (try done; rewrite Hv; apply subsequence_refl).
  assert (Hlen : length scope = length values.*2).
  { rewrite <- Hv. by rewrite !length_fmap. }
  rewrite Hlen. apply conditional_parameters_everything.
  unfold np.nrows. by rewrite Hsh.
Qed.

(** The full reduction with the pairs in the order of the scope: the
    terminal state of the specification. *)
Theorem full_reduction_in_order σ self a values (inplace : bool) :
  attrs σ self = Some a ->
  consistent a ->
  NoDup (a_variables a) ->
  values.*1 = a_variables a ->
  exists g' result σ',
    full_reduction_g (a_g a) (a_K a) (a_h a) values.*2 = Ok g' /\
    reduce self (PyList values) inplace σ = (Ok result, σ') /\
    attrs σ' (target self result) =
      Some (Attributes [] (np.NDArray (0, 0) []) (np.NDArray (0, 1) []) (GArray g') None).
Proof.
  intros Ha Hc Hnd Hv.
  assert (Hsub : subsequence values.*1 (a_variables a) = true)
    by (rewrite Hv; apply subsequence_refl).
  destruct (reduce_any_mode σ self a values inplace Ha Hc (subsequence_Forall _ _ Hsub))
    as (r & result & σ' & Hr & Hred & Hattrs & _).
  destruct Hc as (HwK & HsK & Hwh & Hsh & Hwg).
  rewrite (reduce_core_conditional _ _ _ _ _ HwK HsK Hwh Hsh Hnd Hsub) in Hr.
  rewrite (conditional_form_everything _ _ _ _ _ HwK HsK Hwh Hsh Hnd Hv) in Hr.
  destruct (full_reduction_g (a_g a) (a_K a) (a_h a) values.*2) as [g'|]; [|done].
  simpl in Hr. inversion Hr; subst r.
  by exists g', result, σ'.
Qed.

Lemma full_reduction_in_order_witness :
  exists result σ',
    reduce phi (PyList all_in_order) true example_heap = (Ok result, σ') /\
    attrs σ' (target phi result) =
      Some (Attributes [] (np.NDArray (0, 0) []) (np.NDArray (0, 1) [])
              (GArray (np.NDArray (1, 1) [[Q2Qc (13 # 8)]])) None).
Proof.
  destruct (full_reduction_in_order example_heap phi example_attrs all_in_order true
              example_attrs_eq example_consistent)
    as (g' & result & σ' & Hg & Hred & Hattrs).
  - by_compute.
  - reflexivity.
  - exists result, σ'. split; [done|].
    assert (Hg' : g' = np.NDArray (1, 1) [[Q2Qc (13 # 8)]]).
    { assert (Hf : full_reduction_g (a_g example_attrs) (a_K example_attrs)
                     (a_h example_attrs) all_in_order.*2 =
                   Ok (np.NDArray (1, 1) [[Q2Qc (13 # 8)]])) by by_compute.
      congruence. }
    by rewrite <- Hg'.
Defined.

(** The full reduction in any order: it succeeds, and the scope, [K] and [h]
    are empty. *)
Theorem full_reduction_any_order σ self a values (inplace : bool) :
  attrs σ self = Some a ->
  consistent a ->
  Forall (fun v => v ∈ a_variables a) values.*1 ->
  (forall v, v ∈ a_variables a -> v ∈ values.*1) ->
  exists g' result σ',
    reduce self (PyList values) inplace σ = (Ok result, σ') /\
    attrs σ' (target self result) =
      Some (Attributes [] (np.NDArray (0, 0) []) (np.NDArray (0, 1) []) (GArray g') None).
Proof.
  intros Ha Hc Hnames Hall.
  destruct (reduce_any_mode σ self a values inplace Ha Hc Hnames)
    as (r & result & σ' & Hr & Hred & Hattrs & _).
  destruct Hc as (HwK & HsK & Hwh & Hsh & Hwg).
  destruct (reduce_core_everything _ _ _ (a_g a) _ HsK Hsh Hnames Hall) as (g' & Hr' & _).
  rewrite Hr' in Hr. inversion Hr; subst r.
  by exists g', result, σ'.
Qed.

Lemma full_reduction_any_order_witness :
  exists g' result σ',
    reduce phi (PyList all_rotated) true example_heap = (Ok result, σ') /\
    attrs σ' (target phi result) =
      Some (Attributes [] (np.NDArray (0, 0) []) (np.NDArray (0, 1) []) (GArray g') None).
Proof.
  apply (full_reduction_any_order example_heap phi example_attrs all_rotated true
           example_attrs_eq example_consistent).
  - by_compute.
  - intros v Hv. simpl in Hv. unfold example_scope in Hv.
    repeat (apply elem_of_cons in Hv as [->|Hv]; [by_compute|]).
    by apply elem_of_nil in Hv.
Defined.

(** ** The constructor *)

Lemma bind_inv {A B} (m : M A) (k : A -> M B) σ b σ' :
  (m ≫= k) σ = (Ok b, σ') ->
  exists a σ1, m σ = (Ok a, σ1) /\ k a σ1 = (Ok b, σ').
Proof.
  unfold mbind, M_bind. destruct (m σ) as [[a|e] σ1]; [eauto|done].
Qed.

(** What a successful construction stores: the scope, [g] and the density
    function as they are given, in a new object. *)
Lemma init_Ok_inv variables K h g pdf σ r σ' :
  init variables K h g pdf σ = (Ok r, σ') ->
  objects σ !! r = None /\
  exists lK lh, objects σ' !! r = Some (Factor variables lK lh g pdf).
Proof.
  unfold init. intros Hinit.
  apply bind_inv in Hinit as (n & σ1 & Hlen & Hinit).
  assert (Hobj1 : objects σ1 = objects σ).
  { destruct h as [l|rows|l]; simpl in Hlen; try (by inversion Hlen).
    apply bind_inv in Hlen as (x & σ0 & Hread & Hret). inversion Hret; subst.
    unfold read_array in Hread. destruct (arrays σ !! l); by inversion Hread. }
  destruct (decide (n ≠ length variables)); [done|].
  apply bind_inv in Hinit as (lh & σ2 & Hresh & Hinit).
  assert (Hobj2 : objects σ2 = objects σ1).
  { destruct h as [l|rows|l]; simpl in Hresh.
    - apply bind_inv in Hresh as (x & σ0 & Hl & Hal). unfold lift in Hl.
      inversion Hl; subst. by inversion Hal.
    - destruct (nested_shape rows); try done;
        apply bind_inv in Hresh as (x & σ0 & Hl & Hal); unfold lift in Hl;
        inversion Hl; subst; by inversion Hal.
    - apply bind_inv in Hresh as (x & σ0 & Hread & Hk).
      unfold read_array in Hread. destruct (arrays σ1 !! l); inversion Hread; subst.
      destruct (decide (np.shape x = (length variables, 1))); [by inversion Hk|].
      apply bind_inv in Hk as (y & σ3 & Hl & Hal). unfold lift in Hl.
      inversion Hl; subst. by inversion Hal. }
  apply bind_inv in Hinit as (oK & σ3 & Has & Hinit).
  assert (Hobj3 : objects σ3 = objects σ2).
  { destruct K as [l|rows|l]; simpl in Has.
    - by inversion Has.
    - destruct (nested_shape rows); try done; [by inversion Has|].
      apply bind_inv in Has as (x & σ0 & Hal & Hret). inversion Hal; subst.
      by inversion Hret.
    - apply bind_inv in Has as (x & σ0 & Hread & Hret). inversion Hret; subst.
      unfold read_array in Hread. destruct (arrays σ2 !! l); by inversion Hread. }
  destruct oK as [lK|]; [|done].
  apply bind_inv in Hinit as (aK & σ4 & Hread & Hinit).
  unfold read_array in Hread. destruct (arrays σ3 !! lK); inversion Hread; subst.
  destruct (decide (np.shape aK ≠ (length variables, length variables))); [done|].
  unfold new_object in Hinit. inversion Hinit; subst. simpl.
  rewrite Hobj3, Hobj2, Hobj1. split; [apply fresh_object_None|].
  exists lK, lh. apply lookup_insert_eq.
Qed.

(** ** The type of [g] *)

(** C9, as the specification states it, fails: the factor of the docstring
    is constructed with the scalar [g = -2], and after
    [reduce([('X3', 0.25)])] its [g] is the 1×1 array [[-2.375]], as the
    docstring shows, not a scalar. *)
Lemma g_is_array_after_reduce :
  is_scalar (a_g example_attrs) = true /\
  exists a', attrs (reduce phi (PyList example_values) true example_heap).2 phi = Some a' /\
             a_g a' = GArray (np.NDArray (1, 1) [[Q2Qc (-19 # 8)]]) /\
             is_scalar (a_g a') = false.
Proof.
  split; [done|]. exists example_reduced. split; [by_compute|done].
Qed.

(** C9, amended.  The constructor stores [g] as it is given, so a scalar is
    stored as a scalar.  Every [reduce] that returns leaves in its target an
    array for [g], never a scalar: an array of the shape the old [g] has as
    an array, which is 1×1 when the old [g] is a scalar or a 1×1 array; the
    target is consistent again, so that this holds along later reductions. *)
Theorem g_after_reduce :
  (forall scope K0 h0 g0 pdf0 σ r σ',
     init scope K0 h0 g0 pdf0 σ = (Ok r, σ') ->
     exists f, objects σ' !! r = Some f /\ g f = g0) /\
  (forall σ self a values (inplace : bool),
     attrs σ self = Some a ->
     consistent a ->
     Forall (fun v => v ∈ a_variables a) values.*1 ->
     exists arr result σ' a',
       reduce self (PyList values) inplace σ = (Ok result, σ') /\
       attrs σ' (target self result) = Some a' /\
       a_g a' = GArray arr /\ is_scalar (a_g a') = false /\
       np.shape arr = np.shape (g_array (a_g a)) /\
       (is_scalar (a_g a) = true -> np.shape arr = (1, 1)) /\
       consistent a').
Proof.
  split.
  - intros scope K0 h0 g0 pdf0 σ r σ' Hinit.
    destruct (init_Ok_inv _ _ _ _ _ _ _ _ Hinit) as (_ & lK & lh & Hobj).
    by eexists.
  - intros σ self a values inplace Ha Hc Hnames.
    destruct (reduce_any_mode σ self a values inplace Ha Hc Hnames)
      as (r & result & σ' & Hr & Hred & Hattrs & Hc' & Hshape).
    exists (new_g r), result, σ', (reduced_attrs r).
    split_and!; try done.
    intros Hsc. rewrite Hshape. by destruct (a_g a).
Qed.

Lemma g_after_reduce_witness :
  exists arr result σ' a',
    reduce phi (PyList example_values) false example_heap = (Ok result, σ') /\
    attrs σ' (target phi result) = Some a' /\
    a_g a' = GArray arr /\ np.shape arr = (1, 1).
Proof.
  destruct (proj2 g_after_reduce example_heap phi example_attrs example_values false
              example_attrs_eq example_consistent)
    as (arr & result & σ' & a' & Hred & Hattrs & Hg & _ & _ & Hs & _).
  - repeat constructor.
  - exists arr, result, σ', a'.
    split_and!; [exact Hred|exact Hattrs|exact Hg|exact (Hs eq_refl)].
Defined.

(** ** The constructor establishes consistency *)

Lemma extends_refl σ : extends σ σ.
Proof. by split. Qed.

Lemma extends_trans σ1 σ2 σ3 : extends σ1 σ2 -> extends σ2 σ3 -> extends σ1 σ3.
Proof. intros [H1 H2] [H3 H4]. split; eauto. Qed.

Lemma alloc_array_inv a σ l σ' :
  alloc_array a σ = (Ok l, σ') ->
  arrays σ !! l = None /\ arrays σ' !! l = Some a /\ extends σ σ' /\
  objects σ' = objects σ /\ (heap_wf σ -> np.wf a -> heap_wf σ').
Proof.
  unfold alloc_array. intros Hal. inversion Hal; subst; simpl.
  assert (Hfresh : arrays σ !! fresh (dom (arrays σ)) = None) by apply fresh_array_None.
  split_and!; [done|apply lookup_insert_eq| |done|].
  - split; [|done]. simpl. intros l a' Hl.
    rewrite lookup_insert_ne; [done|]. by eapply fresh_array_ne.
  - intros Hwf Ha l a'. simpl. intros Hl.
    destruct (decide (fresh (dom (arrays σ)) = l)) as [<-|Hne].
    + rewrite lookup_insert_eq in Hl. by inversion Hl; subst.
    + rewrite lookup_insert_ne in Hl by done. by eapply Hwf.
Qed.

Lemma column_of_wf l : np.wf (np.column_of l).
Proof.
  split; simpl.
  - unfold np.nrows. simpl. by rewrite length_map.
  - apply Forall_forall. intros r Hr. by apply in_map_iff in Hr as (x & <- & _).
Qed.

Lemma reshape_column_inv l n a :
  reshape_column l n = Ok a -> np.shape a = (n, 1) /\ np.wf a.
Proof.
  unfold reshape_column. case_decide as Hlen; [|done]. intros Ha.
  inversion Ha; subst. split; [done|apply column_of_wf].
Qed.

Lemma read_array_inv l σ a σ' :
  read_array l σ = (Ok a, σ') -> σ' = σ /\ arrays σ !! l = Some a.
Proof.
  unfold read_array. destruct (arrays σ !! l) as [a'|]; intros Hr; by inversion Hr.
Qed.

Lemma lift_inv {A} (r : Res A) σ a σ' : lift r σ = (Ok a, σ') -> r = Ok a /\ σ' = σ.
Proof. unfold lift. intros Hl. by inversion Hl. Qed.

Lemma reshape_to_column_inv x n σ l σ' :
  reshape_to_column x n σ = (Ok l, σ') ->
  heap_wf σ ->
  exists a, arrays σ' !! l = Some a /\ np.shape a = (n, 1) /\ np.wf a /\
            extends σ σ' /\ objects σ' = objects σ /\ heap_wf σ'.
Proof.
  intros Hre Hwf.
  assert (Hseq : forall l0 : list Qc,
            (a ← lift (reshape_column l0 n); alloc_array a) σ = (Ok l, σ') ->
            exists a, arrays σ' !! l = Some a /\ np.shape a = (n, 1) /\ np.wf a /\
                      extends σ σ' /\ objects σ' = objects σ /\ heap_wf σ').
  { intros l0 Hb. apply bind_inv in Hb as (a & σ0 & Hl & Hal).
    apply lift_inv in Hl as [Hl ->]. apply reshape_column_inv in Hl as [Hs Hw].
    apply alloc_array_inv in Hal as (_ & Hnew & Hext & Hobj & Hwf').
    exists a. split_and!; auto. }
  destruct x as [l0|rows|l0]; simpl in Hre.
  - by apply (Hseq l0).
  - destruct (nested_shape rows); try done; by apply (Hseq (concat rows)).
  - apply bind_inv in Hre as (a & σ0 & Hread & Hk).
    apply read_array_inv in Hread as [-> Ha].
    case_decide as Hs.
    + inversion Hk; subst. exists a. split_and!; eauto using extends_refl.
    + by apply (Hseq (concat (np.data a))).
Qed.

Lemma nested_shape_wf rows r c :
  nested_shape rows = Shape2 r c -> np.wf (np.NDArray (r, c) rows).
Proof.
  unfold nested_shape. destruct rows as [|row rows]; [done|].
  destruct (forallb _ rows) eqn:Hall; [|done]. intros Hs. inversion Hs; subst.
  split; [done|]. simpl. unfold np.ncols. simpl.
  constructor; [done|]. apply Forall_forall. intros r' Hr'.
  rewrite forallb_forall in Hall. by apply Nat.eqb_eq, Hall.
Qed.

Lemma asarray_inv x σ l σ' :
  asarray x σ = (Ok (Some l), σ') ->
  heap_wf σ ->
  exists a, arrays σ' !! l = Some a /\ np.wf a /\
            extends σ σ' /\ objects σ' = objects σ /\ heap_wf σ'.
Proof.
  intros Has Hwf. destruct x as [l0|rows|l0]; simpl in Has.
  - by inversion Has.
  - destruct (nested_shape rows) as [|r c|] eqn:Hshape; try done.
    apply bind_inv in Has as (l1 & σ0 & Hal & Hret). inversion Hret; subst.
    apply alloc_array_inv in Hal as (_ & Hnew & Hext & Hobj & Hwf').
    pose proof (nested_shape_wf _ _ _ Hshape).
    eexists. split_and!; eauto.
  - apply bind_inv in Has as (a & σ0 & Hread & Hret). inversion Hret; subst.
    apply read_array_inv in Hread as [-> Ha].
    exists a. split_and!; eauto using extends_refl.
Qed.

(** The shape invariant: a construction that returns has stored the scope,
    [g] and the density function as given, a [K] of shape (n, n) and an [h]
    of shape (n, 1) for the [n] variables of the scope. *)
Theorem init_consistent scope K0 h0 g0 pdf0 σ r σ' :
  init scope K0 h0 g0 pdf0 σ = (Ok r, σ') ->
  heap_wf σ ->
  np.wf (g_array g0) ->
  objects σ !! r = None /\ extends σ σ' /\ heap_wf σ' /\
  exists a, attrs σ' r = Some a /\ consistent a /\
            a_variables a = scope /\ a_g a = g0 /\ a_pdf a = pdf0.
Proof.
  unfold init. intros Hinit Hwf Hwg.
  apply bind_inv in Hinit as (n & σ1 & Hlen & Hinit).
  assert (Hσ1 : σ1 = σ).
  { destruct h0 as [l|rows|l]; simpl in Hlen; try (by inversion Hlen).
    apply bind_inv in Hlen as (x & σ0 & Hread & Hret). inversion Hret; subst.
    by apply read_array_inv in Hread as [-> _]. }
  subst σ1. case_decide; [done|].
  apply bind_inv in Hinit as (lh & σ2 & Hresh & Hinit).
  apply reshape_to_column_inv in Hresh as (ah & Hah & Hsh & Hwh & Hext2 & Hobj2 & Hwf2);
    [|done].
  apply bind_inv in Hinit as (oK & σ3 & Has & Hinit).
  destruct oK as [lK|]; [|done].
  apply asarray_inv in Has as (aK & HaK & HwK & Hext3 & Hobj3 & Hwf3); [|done].
  apply bind_inv in Hinit as (aK' & σ4 & Hread & Hinit).
  apply read_array_inv in Hread as [-> HaK']. rewrite HaK in HaK'. inversion HaK'; subst aK'.
  case_decide as HsK; [done|].
  unfold new_object in Hinit. inversion Hinit; subst. simpl.
  split_and!.
  - rewrite <- Hobj2, <- Hobj3. apply fresh_object_None.
  - eapply extends_trans; [exact Hext2|]. eapply extends_trans; [exact Hext3|].
    split; [done|]. simpl. intros r' f' Hr'.
    rewrite lookup_insert_ne; [done|]. by eapply fresh_object_ne.
  - intros l a. simpl. apply Hwf3.
  - exists (Attributes scope aK ah g0 pdf0). split_and!; try done.
    apply (attrs_intro _ _ (Factor scope lK lh g0 pdf0)); simpl.
    + apply lookup_insert_eq.
    + done.
    + by apply Hext3.
Qed.

(** ** The errors of the constructor *)

(** C3.  A [K] of the wrong shape: for the scope [X], [h = [1]] and the 1×2
    array [K = [[1, 2]]] the constructor fails, but with the AttributeError
    of the read of [self.covariance] in the message, not with a ValueError
    that names the expected shape (1, 1) and the shape (1, 2) of [K]. *)
Theorem init_K_shape_error :
  (init ["X"] (PyNested [[qz 1; qz 2]]) (PyFlat [qz 1]) (GScalar (qz 0)) None empty_heap).1
  = Raise (AttributeError "'CanonicalFactor' object has no attribute 'covariance'").
Proof. by_compute. Qed.

(** The same for every nested sequence [K] of a shape other than (n, n),
    with a flat [h] of the right length. *)
Theorem init_K_shape_mismatch scope rows r c l g0 pdf0 σ :
  nested_shape rows = Shape2 r c ->
  (r, c) ≠ (length scope, length scope) ->
  length l = length scope ->
  (init scope (PyNested rows) (PyFlat l) g0 pdf0 σ).1
  = Raise (AttributeError "'CanonicalFactor' object has no attribute 'covariance'").
Proof.
  intros Hshape Hne Hlen. unfold init. simpl.
  unfold mbind at 1, M_bind, mret, M_ret.
  rewrite decide_False by (intros Hn; by apply Hn).
  unfold reshape_column. rewrite decide_True by done.
  unfold mbind, M_bind, lift, alloc_array. simpl.
  rewrite Hshape. simpl. unfold read_array. simpl.
  rewrite lookup_insert_eq. simpl.
  by rewrite decide_True.
Qed.

Lemma init_K_shape_mismatch_witness :
  (init ["X"; "Y"] (PyNested [[qz 1; qz 2; qz 3]; [qz 4; qz 5; qz 6]]) (PyFlat [qz 1; qz 2])
        (GScalar (qz 0)) None empty_heap).1
  = Raise (AttributeError "'CanonicalFactor' object has no attribute 'covariance'").
Proof.
  apply (init_K_shape_mismatch ["X"; "Y"] _ 2 3); [reflexivity| |reflexivity].
  intros Heq. inversion Heq.
Defined.

(** An [h] of the wrong length: a ValueError, before [K] is looked at. *)
Theorem init_h_length_mismatch scope K0 h0 g0 pdf0 σ n :
  len h0 σ = (Ok n, σ) ->
  n ≠ length scope ->
  init scope K0 h0 g0 pdf0 σ =
    (Raise (ValueError
       "Length of h parameter vector must be equal to thenumber of variables."), σ).
Proof.
  intros Hlen Hne. unfold init.
  rewrite (bind_Ok _ _ _ _ _ Hlen). by rewrite decide_True.
Qed.

Lemma init_h_length_mismatch_witness :
  init ["X"; "Y"] (PyNested [[qz 1; qz 0]; [qz 0; qz 1]]) (PyFlat [qz 1])
       (GScalar (qz 0)) None empty_heap =
    (Raise (ValueError
       "Length of h parameter vector must be equal to thenumber of variables."),
     empty_heap).
Proof.
  apply (init_h_length_mismatch _ _ _ _ _ _ 1); [reflexivity|]. simpl. lia.
Defined.

(** Consistent dimensions: the construction returns; nothing else about [K]
    is checked. *)
Theorem init_succeeds scope rows l g0 pdf0 σ :
  nested_shape rows = Shape2 (length scope) (length scope) ->
  length l = length scope ->
  exists r σ', init scope (PyNested rows) (PyFlat l) g0 pdf0 σ = (Ok r, σ').
Proof.
  intros Hshape Hlen. unfold init. simpl.
  unfold mbind at 1, M_bind, mret, M_ret.
  rewrite decide_False by (intros Hn; by apply Hn).
  unfold reshape_column. rewrite decide_True by done.
  unfold mbind, M_bind, lift, alloc_array. simpl.
  rewrite Hshape. simpl. unfold read_array. simpl.
  rewrite lookup_insert_eq. simpl.
  rewrite decide_False by (intros Hn; by apply Hn).
  unfold new_object. eauto.
Qed.

Lemma init_succeeds_witness :
  exists r σ', init example_scope (PyNested example_K) (PyFlat [qz 1; qz 4; qz (-1)])
                 (GScalar (qz (-2))) None empty_heap = (Ok r, σ').
Proof. apply init_succeeds; reflexivity. Defined.

(** ** The conversion to the moment form *)

(** The conversion reads the store and never writes it. *)
Lemma to_joint_gaussian_pure `{LinAlg} self σ res σ' :
  to_joint_gaussian self σ = (res, σ') -> σ' = σ.
Proof.
  unfold to_joint_gaussian, mbind, M_bind, read_object, read_array, lift, mret, M_ret.
  destruct (objects σ !! self) as [f|]; [|by inversion 1].
  destruct (arrays σ !! K f) as [vK|]; [|by inversion 1].
  destruct (arrays σ !! h f) as [vh|]; [|by inversion 1].
  destruct (linalg_inv vK) as [C|e]; [|by inversion 1].
  destruct (np.dot C vh) as [m|e]; by inversion 1.
Qed.

(** What the conversion does, whatever [np.linalg.inv] does: the covariance
    is the matrix [np.linalg.inv] returns, the mean its product with [h],
    the scope that of the factor; an error of [np.linalg.inv] or of
    [np.dot] comes out as it is. *)
Lemma to_joint_gaussian_run `{LinAlg} self σ a :
  attrs σ self = Some a ->
  to_joint_gaussian self σ =
    (C ← linalg_inv (a_K a); m ← np.dot C (a_h a); Ok (JGD (a_variables a) m C), σ).
Proof.
  intros Ha. destruct (attrs_Some _ _ _ Ha) as (f & Hf & HK & Hh & Hv & _).
  unfold to_joint_gaussian.
  rewrite (bind_Ok _ _ _ _ _ (read_object_run _ _ _ Hf)).
  rewrite (bind_Ok _ _ _ _ _ (read_array_run _ _ _ HK)).
  rewrite (bind_Ok _ _ _ _ _ (read_array_run _ _ _ Hh)).
  unfold mbind at 1, M_bind, lift. destruct (linalg_inv (a_K a)) as [C|e]; [|done].
  unfold mbind at 1, M_bind. simpl. destruct (np.dot C (a_h a)) as [m|e]; [|done].
  simpl. by rewrite Hv.
Qed.

Lemma gaussian_attrs_eq : attrs gaussian_heap phi = Some gaussian_attrs.
Proof. by_compute. Qed.

Lemma gaussian_consistent : consistent gaussian_attrs.
Proof. by repeat split; try apply wf_intro. Qed.

Lemma to_joint_gaussian_example :
  to_joint_gaussian phi gaussian_heap = (Ok gaussian_jgd, gaussian_heap).
Proof. by_compute. Qed.

(** ** The density function *)

Lemma assignment_binds `{LinAlg} σ self f args jgd :
  objects σ !! self = Some f -> pdf f = None ->
  to_joint_gaussian self σ = (Ok jgd, σ) ->
  assignment self args σ =
    (Ok (PdfCall (GaussianPdf jgd) args),
     Heap (arrays σ)
          (<[self := Factor (variables f) (K f) (h f) (g f) (Some (GaussianPdf jgd))]>
             (objects σ))).
Proof.
  intros Hf Hp Hconv. unfold assignment.
  rewrite (bind_Ok _ _ _ _ _ (read_object_run _ _ _ Hf)). rewrite Hp.
  erewrite bind_Ok.
  2:{ rewrite (bind_Ok _ _ _ _ _ Hconv). by apply set_pdf_run. }
  erewrite bind_Ok; [|apply read_object_run; simpl; apply lookup_insert_eq].
  done.
Qed.

Lemma assignment_fails `{LinAlg} σ self f args e :
  objects σ !! self = Some f -> pdf f = None ->
  to_joint_gaussian self σ = (Raise e, σ) ->
  assignment self args σ = (Raise e, σ).
Proof.
  intros Hf Hp Hconv. unfold assignment.
  rewrite (bind_Ok _ _ _ _ _ (read_object_run _ _ _ Hf)). rewrite Hp.
  erewrite bind_Raise; [done|]. by erewrite bind_Raise.
Qed.

Lemma assignment_cached `{LinAlg} σ self f args p :
  objects σ !! self = Some f -> pdf f = Some p ->
  assignment self args σ = (Ok (PdfCall p args), σ).
Proof.
  intros Hf Hp. unfold assignment.
  rewrite (bind_Ok _ _ _ _ _ (read_object_run _ _ _ Hf)). rewrite Hp.
  erewrite bind_Ok; [|reflexivity].
  rewrite (bind_Ok _ _ _ _ _ (read_object_run _ _ _ Hf)). by rewrite Hp.
Qed.

(** The density function a factor holds. *)
Lemma attrs_pdf σ r a f :
  attrs σ r = Some a -> objects σ !! r = Some f -> pdf f = a_pdf a.
Proof.
  intros Ha Hf. destruct (attrs_Some _ _ _ Ha) as (f' & Hf' & _ & _ & _ & _ & Hp).
  congruence.
Qed.

(** C7.  A factor constructed without a density function holds none.
    [copy] and [to_joint_gaussian] bind none (the copy holds what the
    original holds, the conversion does not write).  The first call of
    [assignment] converts the factor: when the conversion returns the moment
    form, its density function is bound and called, and when the conversion
    raises (a singular [K]), [assignment] raises the same and the density
    function stays absent.  A later call uses the density function that is
    bound.  Every [reduce] that returns leaves its target without a density
    function. *)
Theorem density_function_lifecycle `{LinAlg} :
  (forall scope K0 h0 g0 σ r σ',
     init scope K0 h0 g0 None σ = (Ok r, σ') ->
     exists f, objects σ' !! r = Some f /\ pdf f = None) /\
  (forall σ self a,
     attrs σ self = Some a -> consistent a ->
     exists c σ', copy self σ = (Ok c, σ') /\
       attrs σ' self = Some a /\ attrs σ' c = Some a) /\
  (forall σ self res σ', to_joint_gaussian self σ = (res, σ') -> σ' = σ) /\
  (forall σ self a args,
     attrs σ self = Some a -> a_pdf a = None ->
     (forall jgd, to_joint_gaussian self σ = (Ok jgd, σ) ->
        exists σ', assignment self args σ = (Ok (PdfCall (GaussianPdf jgd) args), σ') /\
          attrs σ' self = Some (Attributes (a_variables a) (a_K a) (a_h a) (a_g a)
                                  (Some (GaussianPdf jgd)))) /\
     (forall e, to_joint_gaussian self σ = (Raise e, σ) ->
        assignment self args σ = (Raise e, σ))) /\
  (forall σ self a args p,
     attrs σ self = Some a -> a_pdf a = Some p ->
     assignment self args σ = (Ok (PdfCall p args), σ)) /\
  (forall σ self a values (inplace : bool),
     attrs σ self = Some a -> consistent a ->
     Forall (fun v => v ∈ a_variables a) values.*1 ->
     exists result σ' a',
       reduce self (PyList values) inplace σ = (Ok result, σ') /\
       attrs σ' (target self result) = Some a' /\ a_pdf a' = None).
Proof.
  split_and!.
  - intros scope K0 h0 g0 σ r σ' Hinit.
    destruct (init_Ok_inv _ _ _ _ _ _ _ _ Hinit) as (_ & lK & lh & Hobj). by eexists.
  - intros σ self a Ha (HwK & HsK & Hwh & Hsh & _).
    destruct (attrs_Some _ _ _ Ha) as (f & Hf & HK & Hh & Hv & Hg & Hp).
    rewrite Hv in HsK, Hsh.
    pose proof (copy_run σ self f _ _ Hf HK Hh HsK Hsh) as Hcopy. cbv zeta in Hcopy.
    eexists _, _. split; [exact Hcopy|].
    assert (Hc : objects σ !! fresh (dom (objects σ)) = None) by apply fresh_object_None.
    assert (Hne : fresh (dom (objects σ)) ≠ self) by (intros Heq; congruence).
    assert (Heq : Attributes (variables f) (a_K a) (a_h a) (g f) (pdf f) = a).
    { rewrite <- Hv, <- Hg, <- Hp. by destruct a. }
    assert (Hobj : forall σ2 r f2, objects σ2 !! r = Some f2 ->
              variables f2 = variables f -> g f2 = g f -> pdf f2 = pdf f ->
              arrays σ2 !! K f2 = Some (a_K a) -> arrays σ2 !! h f2 = Some (a_h a) ->
              attrs σ2 r = Some a).
    { intros σ2 r f2 H1 Hv2 Hg2 Hp2 H2 H3. rewrite (attrs_intro _ _ _ _ _ H1 H2 H3).
      by rewrite Hv2, Hg2, Hp2, Heq. }
    split.
    + apply (Hobj _ _ f); simpl; try done.
      * by rewrite lookup_insert_ne.
      * by apply (lookup_alloc2 (arrays σ)).
      * by apply (lookup_alloc2 (arrays σ)).
    + eapply Hobj; simpl; [apply lookup_insert_eq|done|done|done|..]; simpl.
      * rewrite lookup_insert_ne; [apply lookup_insert_eq|].
        apply (fresh_array_ne _ _ (a_K a)), lookup_insert_eq.
      * apply lookup_insert_eq.
  - intros σ self res σ'. apply to_joint_gaussian_pure.
  - intros σ self a args Ha Hnone.
    destruct (attrs_Some _ _ _ Ha) as (f & Hf & HK & Hh & Hv & Hg & Hp).
    rewrite Hnone in Hp. split.
    + intros jgd Hconv. eexists. split; [by apply assignment_binds|].
      rewrite Hv, Hg.
      apply (attrs_intro _ _ (Factor (variables f) (K f) (h f) (g f)
                                (Some (GaussianPdf jgd)))); simpl;
        [apply lookup_insert_eq|done|done].
    + intros e Hconv. by eapply assignment_fails.
  - intros σ self a args p Ha Hsome.
    destruct (attrs_Some _ _ _ Ha) as (f & Hf & _ & _ & _ & _ & Hp).
    rewrite Hsome in Hp. by eapply assignment_cached.
  - intros σ self a values inplace Ha Hc Hnames.
    destruct (reduce_any_mode σ self a values inplace Ha Hc Hnames)
      as (r & result & σ' & _ & Hred & Hattrs & _).
    by exists result, σ', (reduced_attrs r).
Qed.

Lemma density_function_lifecycle_witness :
  exists σ1 result σ2 a2,
    assignment phi [qz 0; qz 0] gaussian_heap =
      (Ok (PdfCall (GaussianPdf gaussian_jgd) [qz 0; qz 0]), σ1) /\
    (pdf <$> objects σ1 !! phi) = Some (Some (GaussianPdf gaussian_jgd)) /\
    reduce phi (PyList [("x2", qz 1)]) true σ1 = (Ok result, σ2) /\
    attrs σ2 (target phi result) = Some a2 /\ a_pdf a2 = None.
Proof.
  destruct (@density_function_lifecycle exact_linalg)
    as (_ & _ & _ & Hassign & _ & Hreduce).
  destruct (Hassign gaussian_heap phi gaussian_attrs [qz 0; qz 0]
              gaussian_attrs_eq eq_refl) as [Hbind _].
  destruct (Hbind gaussian_jgd to_joint_gaussian_example) as (σ1 & Hcall & Hattrs).
  destruct (Hreduce σ1 phi _ [("x2", qz 1)] true Hattrs)
    as (result & σ2 & a2 & Hred & Ha2 & Hp2).
  - exact gaussian_consistent.
  - repeat constructor.
  - exists σ1, result, σ2, a2. split_and!; [exact Hcall| |exact Hred|exact Ha2|exact Hp2].
    destruct (attrs_Some _ _ _ Hattrs) as (f & Hf & _ & _ & _ & _ & Hp).
    rewrite Hf. cbn [fmap option_fmap option_map]. by rewrite <- Hp.
Defined.

Lemma empty_heap_wf : heap_wf empty_heap.
Proof. intros l a Hl. simpl in Hl. by rewrite lookup_empty in Hl. Qed.

Lemma example_init_eq : example_init = (Ok phi, example_heap).
Proof. by_compute. Qed.

Lemma init_consistent_witness :
  exists a, attrs example_heap phi = Some a /\ consistent a /\
            a_variables a = example_scope /\ a_pdf a = None.
Proof.
  destruct (init_consistent example_scope (PyNested example_K) (PyNested example_h)
              (GScalar (qz (-2))) None empty_heap phi example_heap
              example_init_eq empty_heap_wf)
    as (_ & _ & _ & a & Ha & Hc & Hv & _ & Hp).
  - by apply wf_intro.
  - by exists a.
Defined.

(** ** Errors of [reduce] *)

(** A pair that names a variable outside the scope: the lookup of its
    position raises a ValueError, and an in-place [reduce] has written
    nothing. *)
Theorem reduce_unknown_variable σ self a values :
  attrs σ self = Some a ->
  ¬ Forall (fun v => v ∈ a_variables a) values.*1 ->
  reduce self (PyList values) true σ = (Raise (ValueError "x is not in list"), σ).
Proof.
  intros Ha Hnot.
  destruct (attrs_Some _ _ _ Ha) as (f & Hf & HK & Hh & Hv & Hg & _).
  apply (reduce_raises σ self values true self σ f (a_K a) (a_h a)); try done.
  rewrite <- Hv. by apply reduce_blocks_unknown.
Qed.

Lemma reduce_unknown_variable_witness :
  reduce phi (PyList [("X4", qz 1)]) true example_heap =
    (Raise (ValueError "x is not in list"), example_heap).
Proof.
  apply (reduce_unknown_variable example_heap phi example_attrs _ example_attrs_eq).
  intros Hall. apply list.Forall_cons in Hall as [Hin _].
  assert (Hout : "X4" ∉ a_variables example_attrs) by by_compute.
  by apply Hout.
Defined.

(** ** The rounding discretizer *)

Lemma fold_left_append {A B} (f : A -> B) (l : list A) (init : list B) :
  fold_left (fun acc i => acc ++ [f i]) l init = init ++ map f l.
Proof.
  revert init. induction l as [|x l IH]; intros init; simpl.
  - by rewrite app_nil_r.
  - rewrite IH. by rewrite <- app_assoc.
Qed.

Lemma Qfloor_plus_Z (x : Q) (z : Z) : Qfloor (x + inject_Z z) = (Qfloor x + z)%Z.
Proof.
  destruct x as [n d]. unfold Qplus, inject_Z, Qfloor. simpl.
  rewrite Z.mul_1_r, Pos.mul_1_r. apply Z.div_add. done.
Qed.

Lemma Qceiling_minus_1 (x : Q) : Qceiling (x - 1) = (Qceiling x - 1)%Z.
Proof.
  unfold Qceiling.
  assert (H : (- (x - 1) == - x + inject_Z 1)%Q) by (unfold inject_Z; ring).
  rewrite (Qfloor_comp _ _ H), Qfloor_plus_Z. lia.
Qed.

Lemma Qc_ceiling_shift (a b s : Qc) :
  s <> 0%Qc ->
  Qceiling ((b - (a + s)) / s)%Qc = (Qceiling ((b - a) / s)%Qc - 1)%Z.
Proof.
  intros Hs. rewrite <- Qceiling_minus_1. apply Qceiling_comp.
  assert (H : ((b - (a + s)) / s = (b - a) / s - 1)%Qc) by (field; done).
  rewrite H. unfold Qcminus, Qcplus, Qcopp. simpl.
  rewrite !Qred_correct. reflexivity.
Qed.

Lemma qz_succ (i : nat) : qz (Z.of_nat (S i)) = (qz (Z.of_nat i) + 1)%Qc.
Proof.
  unfold qz. apply Qc_is_canon. simpl.
  rewrite !Qred_correct. rewrite Nat2Z.inj_succ. unfold Z.succ.
  rewrite inject_Z_plus. reflexivity.
Qed.

Lemma qz_nonneg (i : nat) : (0 <= qz (Z.of_nat i))%Qc.
Proof.
  induction i as [|i IH]; [done|].
  rewrite qz_succ. replace 0%Qc with (0 + 0)%Qc by ring.
  apply Qcplus_le_compat; [done|]. done.
Qed.

Lemma qz_succ_neq_0 (i : nat) : qz (Z.of_nat (S i)) <> 0%Qc.
Proof.
  rewrite qz_succ. intros H.
  pose proof (qz_nonneg i) as Hi.
  assert (H1 : (0 + 1 <= qz (Z.of_nat i) + 1)%Qc) by (apply Qcplus_le_compat; done).
  rewrite H in H1. revert H1. by vm_compute.
Qed.

(** The number of points: the first one and those of [np.arange]. *)
Lemma points_length (self : RoundingDiscretizer) :
  step self <> 0%Qc ->
  Z.to_nat (Z.max 1 (Qceiling ((to self - frm self) / step self)%Qc))
  = S (Z.to_nat (Qceiling ((to self - (frm self + step self)) / step self)%Qc)).
Proof. intros Hs. rewrite (Qc_ceiling_shift _ _ _ Hs). lia. Qed.

Lemma point_0 self : point self 0 = frm self.
Proof. unfold point. change (qz (Z.of_nat 0)) with 0%Qc. ring. Qed.

Lemma point_S self i : point self (S i) = (point self i + step self)%Qc.
Proof. unfold point. rewrite qz_succ. ring. Qed.

Lemma point_S_neq self i : step self <> 0%Qc -> point self (S i) <> frm self.
Proof.
  intros Hs H.
  assert (H0 : (qz (Z.of_nat (S i)) * step self = 0)%Qc).
  { transitivity (point self (S i) - frm self)%Qc; [unfold point; ring|].
    rewrite H. ring. }
  apply Qcmult_integral in H0. destruct H0 as [H0|H0]; [|done].
  by apply qz_succ_neq_0 in H0.
Qed.

Lemma point_mass_0 self :
  point_mass self (point self 0)
  = (cdf (factor self) (frm self + step self / qz 2) - cdf (factor self) (frm self))%Qc.
Proof. rewrite point_0. unfold point_mass. by rewrite decide_True. Qed.

Lemma point_mass_S self i :
  step self <> 0%Qc ->
  point_mass self (point self (S i))
  = (cdf (factor self) (point self (S i) + step self / qz 2)
     - cdf (factor self) (point self (S i) - step self / qz 2))%Qc.
Proof. intros Hs. unfold point_mass. rewrite decide_False; [done|]. by apply point_S_neq. Qed.

(** The loop of [get_discrete_values], run on exact numbers, where the
    points of [np.arange] are equally spaced and counted without rounding. *)
Lemma get_discrete_values_run (self : RoundingDiscretizer) :
  step self <> 0%Qc ->
  get_discrete_values self = Returns (map (point_mass self) (points self)).
Proof.
  intros Hs. unfold get_discrete_values, arange, points.
  rewrite decide_False by done. f_equal.
  rewrite (fold_left_append
             (fun i => (cdf (factor self) (i + step self / qz 2)
                        - cdf (factor self) (i - step self / qz 2))%Qc)).
  rewrite (points_length _ Hs).
  set (m := Z.to_nat _). rewrite <- cons_seq. cbn [map app].
  f_equal.
  - by rewrite point_mass_0.
  - rewrite <- fmap_S_seq. rewrite !map_map. apply map_ext. intros i.
    rewrite (point_mass_S _ _ Hs). rewrite point_S. unfold point.
    by replace (frm self + step self + qz (Z.of_nat i) * step self)%Qc
      with (frm self + qz (Z.of_nat i) * step self + step self)%Qc by ring.
Qed.

Lemma pos_neq_0 (s : Qc) : (0 < s)%Qc -> s <> 0%Qc.
Proof. intros Hs ->. by apply Qclt_not_le in Hs. Qed.

Lemma half_step_nonneg (s : Qc) : (0 < s)%Qc -> (0 <= s / qz 2)%Qc.
Proof.
  intros Hs. apply Qclt_le_weak. unfold Qcdiv.
  apply Qcmult_pos_pos; [done|]. apply Qcinv_pos. by_compute.
Qed.

Lemma cdf_difference (F : Qc -> Qc) (a b : Qc) :
  nondecreasing F ->
  (forall x, (0 <= F x)%Qc /\ (F x <= 1)%Qc) ->
  (a <= b)%Qc ->
  (0 <= F b - F a)%Qc /\ (F b - F a <= 1)%Qc.
Proof.
  intros Hmono Hb Hab. unfold Qcminus. split.
  - apply (proj1 (Qcle_minus_iff _ _)). by apply Hmono.
  - replace 1%Qc with (1 + - 0)%Qc by ring.
    apply Qcplus_le_compat; [apply Hb|]. apply Qcopp_le_compat, Hb.
Qed.

Lemma example_cdf_nondecreasing : nondecreasing (cdf (factor example_discretizer)).
Proof.
  intros x y Hxy. simpl.
  destruct (decide (x < 0)%Qc) as [Hx|Hx], (decide (y < 0)%Qc) as [Hy|Hy]; try done.
  exfalso. apply Hx. by eapply Qcle_lt_trans.
Qed.

Lemma example_cdf_bounds x :
  (0 <= cdf (factor example_discretizer) x)%Qc /\ (cdf (factor example_discretizer) x <= 1)%Qc.
Proof. simpl. by destruct (decide (x < 0)%Qc). Qed.

(** The two ends of a cell are in order. *)
Lemma cell_ends (x s : Qc) : (0 <= s)%Qc -> (x - s <= x + s)%Qc.
Proof.
  intros Hs. unfold Qcminus. apply Qcplus_le_mono_l. etrans; [|exact Hs].
  replace 0%Qc with (- 0)%Qc by ring. by apply Qcopp_le_compat.
Qed.

(** For the distribution function of a probability distribution (a
    nondecreasing function with values between 0 and 1) and a positive
    step, [get_discrete_values] returns, and every mass it returns lies
    between 0 and 1, whatever points [np.arange] yields: a mass is the
    difference of the function at the two ends of a cell, which are in
    order. *)
Theorem get_discrete_values_masses (self : RoundingDiscretizer) :
  (0 < step self)%Qc ->
  nondecreasing (cdf (factor self)) ->
  (forall x, (0 <= cdf (factor self) x)%Qc /\ (cdf (factor self) x <= 1)%Qc) ->
  exists l,
    get_discrete_values self = Returns l /\
    Forall (fun p => (0 <= p)%Qc /\ (p <= 1)%Qc) l.
Proof.
  intros Hs Hmono Hb. pose proof (half_step_nonneg _ Hs) as Hh.
  unfold get_discrete_values, arange.
  rewrite decide_False by by apply pos_neq_0.
  eexists. split; [reflexivity|].
  rewrite (fold_left_append
             (fun i => (cdf (factor self) (i + step self / qz 2)
                        - cdf (factor self) (i - step self / qz 2))%Qc)).
  apply Forall_app. split.
  - apply list.Forall_cons. split; [|constructor].
    apply cdf_difference; [done..|].
    replace (frm self) with (frm self + 0)%Qc at 1 by ring.
    by apply Qcplus_le_mono_l.
  - apply list.Forall_forall. intros p Hp. apply list_elem_of_fmap in Hp.
    destruct Hp as (i & -> & _).
    apply cdf_difference; [done..|]. by apply cell_ends.
Qed.

Lemma get_discrete_values_masses_witness :
  exists l,
    get_discrete_values example_discretizer = Returns l /\
    Forall (fun p => (0 <= p)%Qc /\ (p <= 1)%Qc) l.
Proof.
  apply get_discrete_values_masses.
  - by_compute.
  - apply example_cdf_nondecreasing.
  - apply example_cdf_bounds.
Defined.

Lemma points_single (self : RoundingDiscretizer) :
  (0 < step self)%Qc ->
  (to self <= frm self + step self)%Qc ->
  points self = [frm self].
Proof.
  intros Hs Hto. unfold points.
  assert (H : (Qceiling ((to self - frm self) / step self)%Qc <= 1)%Z).
  { change 1%Z with (Qceiling 1%Qc). apply Qceiling_resp_le.
    change ((to self - frm self) / step self <= 1)%Qc.
    rewrite <- (Qcmult_inv_r (step self)) by by apply pos_neq_0.
    unfold Qcdiv. apply Qcmult_le_compat_r.
    - unfold Qcminus. apply (proj2 (Qcle_minus_iff _ _)).
      replace (step self + - (to self + - frm self))%Qc
        with (frm self + step self + - to self)%Qc by ring.
      by apply (proj1 (Qcle_minus_iff _ _)).
    - apply Qclt_le_weak. by apply Qcinv_pos. }
  replace (Z.to_nat _) with 1 by lia. simpl. by rewrite point_0.
Qed.

(** A step of zero raises the ZeroDivisionError of [np.arange], after
    the mass of the first point has been computed.  For a positive step and
    a [to] that is not beyond [frm + step] (an empty or a reversed range
    too), the result is the one mass of the point [frm]. *)
Theorem get_discrete_values_edges :
  (forall factor frm to,
     get_discrete_values (Discretizer factor frm to 0%Qc)
     = Raises (ZeroDivisionError "float division by zero")) /\
  (forall self,
     (0 < step self)%Qc ->
     (to self <= frm self + step self)%Qc ->
     get_discrete_values self
     = Returns [(cdf (factor self) (frm self + step self / qz 2)
                 - cdf (factor self) (frm self))%Qc]).
Proof.
  split.
  - intros f a b. unfold get_discrete_values, arange. cbn [step].
    by destruct (decide (0%Qc = 0%Qc)).
  - intros self Hs Hto. rewrite (get_discrete_values_run _ (pos_neq_0 _ Hs)).
    rewrite (points_single _ Hs Hto). simpl. f_equal. f_equal.
    rewrite <- point_mass_0. by rewrite point_0.
Qed.

Lemma get_discrete_values_edges_witness :
  get_discrete_values (Discretizer (factor example_discretizer) (qz 3) (qz (-3)) (Q2Qc (1 # 2)))
  = Returns [1%Qc - 1%Qc]%Qc.
Proof.
  apply (proj2 get_discrete_values_edges
           (Discretizer (factor example_discretizer) (qz 3) (qz (-3)) (Q2Qc (1 # 2)))).
  - by_compute.
  - by_compute.
Defined.

(** ** The package [pgmpy.estimators] *)

(** The list [__all__] has eleven names, not twelve: it names neither
    [ConstraintBasedEstimator] nor [StructureScore], which the module
    binds, but their concatenation, which it does not bind; so
    [from pgmpy.estimators import *] raises an AttributeError. *)
Theorem estimators_star_import :
  import_star estimators_namespace __all__
  = Raise (AttributeError
      "module 'pgmpy.estimators' has no attribute 'ConstraintBasedEstimatorStructureScore'") /\
  filter (fun name => name ∉ estimators_namespace) __all__
  = ["ConstraintBasedEstimatorStructureScore"] /\
  filter (fun name => name ∉ __all__) estimators_namespace
  = ["StructureScore"; "ConstraintBasedEstimator"].
Proof. split_and!; by_compute. Qed.

(** ** [reduce], [copy] and the arrays of the store *)

(** The stores [reduce] leaves, in place and not, and the store of a
    reduction in place of a copy. *)
Lemma reduce_stores σ self a values :
  attrs σ self = Some a ->
  consistent a ->
  Forall (fun v => v ∈ a_variables a) values.*1 ->
  exists r c σc σin σout,
    reduce_core (a_variables a) (a_K a) (a_h a) (a_g a) values = Ok r /\
    copy self σ = (Ok c, σc) /\
    reduce self (PyList values) true σ = (Ok None, σin) /\
    reduce self (PyList values) false σ = (Ok (Some c), σout) /\
    reduce c (PyList values) true σc = (Ok None, σout) /\
    attrs σin self = Some (reduced_attrs r) /\
    attrs σout c = Some (reduced_attrs r) /\
    (forall l arr, arrays σ !! l = Some arr ->
       arrays σin !! l = Some arr /\ arrays σout !! l = Some arr).
Proof.
  intros Ha (HwK & HsK & Hwh & Hsh & Hwg) Hnames.
  destruct (reduce_core_total _ _ _ (a_g a) _ HsK Hsh Hnames) as (r & Hr & _).
  destruct (attrs_Some _ _ _ Ha) as (f & Hf & HK & Hh & Hv & Hg & Hp).
  rewrite Hv in HsK, Hsh.
  pose proof Hr as Hr'. rewrite Hv, Hg in Hr'.
  pose proof (copy_run σ self f _ _ Hf HK Hh HsK Hsh) as Hcopy. cbv zeta in Hcopy.
  set (c := fresh (dom (objects σ))) in *.
  set (fc := Factor (variables f) _ _ (g f) (pdf f)) in *.
  set (arr2 := <[_ := a_h a]> _) in *.
  set (σ1 := Heap arr2 (<[c := fc]> (objects σ))) in *.
  assert (Hc : objects σ !! c = None) by apply fresh_object_None.
  assert (Hcs : c ≠ self) by (intros Heq; rewrite Heq in Hc; congruence).
  assert (Hf1 : objects σ1 !! self = Some f) by (simpl; by rewrite lookup_insert_ne).
  assert (HK1 : arrays σ1 !! K f = Some (a_K a)).
  { simpl. unfold arr2. by apply (lookup_alloc2 (arrays σ)). }
  assert (Hh1 : arrays σ1 !! h f = Some (a_h a)).
  { simpl. unfold arr2. by apply (lookup_alloc2 (arrays σ)). }
  assert (Hc1 : objects σ1 !! c = Some fc) by (simpl; apply lookup_insert_eq).
  assert (HKc : arrays σ1 !! K fc = Some (a_K a)).
  { change (arr2 !! fresh (dom (arrays σ)) = Some (a_K a)). unfold arr2.
    rewrite lookup_insert_ne; [apply lookup_insert_eq|].
    apply (fresh_array_ne _ _ (a_K a)), lookup_insert_eq. }
  assert (Hhc : arrays σ1 !! h fc = Some (a_h a)) by (simpl; apply lookup_insert_eq).
  pose proof (reduce_run σ self values true self σ f f _ _ r eq_refl Hf HK Hh Hf Hr')
    as Hin. cbv zeta in Hin.
  pose proof (reduce_run σ self values false c σ1 f fc _ _ r Hcopy Hf1 HK1 Hh1 Hc1 Hr')
    as Hout. cbv zeta in Hout.
  pose proof (reduce_run σ1 c values true c σ1 fc fc _ _ r eq_refl Hc1 HKc Hhc Hc1 Hr')
    as Hcin. cbv zeta in Hcin.
  exists r, c, σ1. eexists _, _.
  split; [exact Hr|]. split; [exact Hcopy|]. split; [exact Hin|].
  split; [exact Hout|]. split; [exact Hcin|].
  split; [apply attrs_of_target|]. split; [apply attrs_of_target|].
  intros l arr Hl. split; simpl.
  - by apply (lookup_alloc2 (arrays σ)).
  - apply (lookup_alloc2 arr2). unfold arr2. by apply (lookup_alloc2 (arrays σ)).
Qed.

(** On a consistent factor, for pairs that name variables of the scope (in
    any order, with repetitions or without), [reduce] returns and leaves in
    its target a consistent factor again: its scope is the variables not
    named, in their order, and it has no density function.  No array of the
    store is written: the new [K] and [h] are new arrays. *)
Theorem reduce_keeps_consistency σ self a values (inplace : bool) :
  attrs σ self = Some a ->
  consistent a ->
  Forall (fun v => v ∈ a_variables a) values.*1 ->
  exists result σ' a',
    reduce self (PyList values) inplace σ = (Ok result, σ') /\
    attrs σ' (target self result) = Some a' /\
    consistent a' /\
    a_variables a' = filter (fun var => var ∉ values.*1) (a_variables a) /\
    a_pdf a' = None /\
    (forall l arr, arrays σ !! l = Some arr -> arrays σ' !! l = Some arr).
Proof.
  intros Ha Hc Hnames.
  destruct (reduce_stores σ self a values Ha Hc Hnames)
    as (r & c & σc & σin & σout & Hr & _ & Hin & Hout & _ & Hain & Haout & Harr).
  destruct Hc as (_ & HsK & _ & Hsh & _).
  destruct (reduce_core_total _ _ _ (a_g a) _ HsK Hsh Hnames)
    as (r' & Hr' & Hvars & HsK' & Hsh' & Hsg' & HwK' & Hwh' & Hwg').
  rewrite Hr in Hr'. inversion Hr'; subst r'; clear Hr'.
  assert (Hcons : consistent (reduced_attrs r)).
  { unfold consistent, reduced_attrs; simpl. by split_and!. }
  destruct inplace.
  - exists None, σin, (reduced_attrs r). split_and!; try done.
    intros l arr Hl. by apply Harr.
  - exists (Some c), σout, (reduced_attrs r). split_and!; try done.
    intros l arr Hl. by apply Harr.
Qed.

Lemma reduce_keeps_consistency_witness :
  exists result σ' a',
    reduce phi (PyList values_swapped) false example_heap = (Ok result, σ') /\
    attrs σ' (target phi result) = Some a' /\
    consistent a' /\
    a_variables a' = filter (fun var => var ∉ values_swapped.*1) example_scope /\
    a_pdf a' = None /\
    (forall l arr, arrays example_heap !! l = Some arr -> arrays σ' !! l = Some arr).
Proof.
  apply (reduce_keeps_consistency example_heap phi example_attrs values_swapped false
           example_attrs_eq example_consistent).
  repeat constructor; by_compute.
Defined.

(** [reduce(values, inplace=False)] is a copy followed by the reduction in
    place of the copy: the same factor is returned, in the same store. *)
Theorem reduce_is_copy_then_reduce σ self a values :
  attrs σ self = Some a ->
  consistent a ->
  Forall (fun v => v ∈ a_variables a) values.*1 ->
  exists c σc σ',
    copy self σ = (Ok c, σc) /\
    reduce c (PyList values) true σc = (Ok None, σ') /\
    reduce self (PyList values) false σ = (Ok (Some c), σ').
Proof.
  intros Ha Hc Hnames.
  destruct (reduce_stores σ self a values Ha Hc Hnames)
    as (r & c & σc & σin & σout & _ & Hcopy & _ & Hout & Hcin & _).
  by exists c, σc, σout.
Qed.

Lemma reduce_is_copy_then_reduce_witness :
  exists c σc σ',
    copy phi example_heap = (Ok c, σc) /\
    reduce c (PyList example_values) true σc = (Ok None, σ') /\
    reduce phi (PyList example_values) false example_heap = (Ok (Some c), σ').
Proof.
  apply (reduce_is_copy_then_reduce example_heap phi example_attrs example_values
           example_attrs_eq example_consistent).
  repeat constructor; by_compute.
Defined.

(** ** The constructor and the arrays of the caller *)

Lemma init_ndarray_run σ scope lK lh vK vh g0 pdf0 :
  arrays σ !! lK = Some vK ->
  arrays σ !! lh = Some vh ->
  np.shape vK = (length scope, length scope) ->
  np.shape vh = (length scope, 1) ->
  let r := fresh (dom (objects σ)) in
  init scope (NdArray lK) (NdArray lh) g0 pdf0 σ
  = (Ok r, Heap (arrays σ) (<[r := Factor scope lK lh g0 pdf0]> (objects σ))).
Proof.
  intros HK Hh HsK Hsh r. unfold init, len, reshape_to_column, asarray.
  pose proof (read_array_run _ _ _ Hh) as Hrh.
  pose proof (read_array_run _ _ _ HK) as HrK.
  rewrite (bind_Ok _ _ _ (np.nrows vh) σ) by (by rewrite (bind_Ok _ _ _ _ _ Hrh)).
  unfold np.nrows. rewrite Hsh. simpl.
  destruct (decide (length scope ≠ length scope)) as [?|_]; [done|].
  rewrite (bind_Ok _ _ _ lh σ).
  2:{ rewrite (bind_Ok _ _ _ _ _ Hrh). by rewrite decide_True. }
  rewrite (bind_Ok _ _ _ (Some lK) σ) by (by rewrite (bind_Ok _ _ _ _ _ HrK)).
  rewrite (bind_Ok _ _ _ _ _ HrK).
  rewrite decide_False by (intros Hn; by apply Hn).
  reflexivity.
Qed.

Lemma item_setitem a i j x :
  np.wf a -> i < np.nrows a -> j < np.ncols a ->
  np.item (np.NDArray (np.shape a) (alter (fun r => <[j := x]> r) i (np.data a))) i j = x.
Proof.
  intros [Hlen Hrows] Hi Hj. unfold np.item. simpl.
  destruct (lookup_lt_is_Some_2 (np.data a) i) as [row Hrow]; [lia|].
  assert (Hrow_len : length row = np.ncols a).
  { by apply (list.Forall_lookup_1 _ _ _ _ Hrows Hrow). }
  rewrite (nth_lookup_Some _ i [] (<[j := x]> row))
    by (by rewrite list_lookup_alter_eq, Hrow).
  apply nth_lookup_Some, list_lookup_insert_eq. lia.
Qed.

(** Constructed from a float array [K] of shape (n, n) and a float array
    [h] of shape (n, 1), the factor keeps these very arrays: nothing is
    allocated, and a later write into the array the caller passed as [K] is
    a write into the [K] of the factor. *)
Theorem init_shares_arrays σ scope lK lh vK vh g0 pdf0 :
  arrays σ !! lK = Some vK ->
  arrays σ !! lh = Some vh ->
  np.wf vK ->
  np.shape vK = (length scope, length scope) ->
  np.shape vh = (length scope, 1) ->
  exists r σ',
    init scope (NdArray lK) (NdArray lh) g0 pdf0 σ = (Ok r, σ') /\
    objects σ' !! r = Some (Factor scope lK lh g0 pdf0) /\
    arrays σ' = arrays σ /\
    (forall i j x, i < length scope -> j < length scope ->
       exists σ'' a',
         setitem lK i j x σ' = (Ok tt, σ'') /\
         attrs σ'' r = Some a' /\ np.item (a_K a') i j = x).
Proof.
  intros HK Hh HwK HsK Hsh.
  eexists _, _. split; [by eapply init_ndarray_run|].
  split; [simpl; apply lookup_insert_eq|]. split; [done|].
  intros i j x Hi Hj.
  assert (Hi' : i < np.nrows vK) by (unfold np.nrows; by rewrite HsK).
  assert (Hj' : j < np.ncols vK) by (unfold np.ncols; by rewrite HsK).
  unfold setitem. simpl. rewrite HK.
  apply Nat.ltb_lt in Hi' as Hib. apply Nat.ltb_lt in Hj' as Hjb.
  rewrite Hib, Hjb. simpl.
  set (vK' := np.NDArray (np.shape vK) _).
  assert (Hlh : exists vh', <[lK := vK']> (arrays σ) !! lh = Some vh').
  { destruct (decide (lK = lh)) as [<-|Hne].
    - exists vK'. apply lookup_insert_eq.
    - exists vh. by rewrite lookup_insert_ne. }
  destruct Hlh as [vh' Hlh].
  eexists _, (Attributes scope vK' vh' g0 pdf0). split; [done|]. split.
  - apply (attrs_intro _ _ (Factor scope lK lh g0 pdf0)); simpl;
      [apply lookup_insert_eq|apply lookup_insert_eq|exact Hlh].
  - simpl. by apply item_setitem.
Qed.

Lemma init_shares_arrays_witness :
  exists r σ',
    init example_scope (NdArray 1) (NdArray 0) (GScalar (qz 0)) None example_heap = (Ok r, σ') /\
    objects σ' !! r = Some (Factor example_scope 1 0 (GScalar (qz 0)) None) /\
    arrays σ' = arrays example_heap /\
    (forall i j x, i < length example_scope -> j < length example_scope ->
       exists σ'' a',
         setitem 1 i j x σ' = (Ok tt, σ'') /\
         attrs σ'' r = Some a' /\ np.item (a_K a') i j = x).
Proof.
  apply (init_shares_arrays example_heap example_scope 1 0
           (np.NDArray (3, 3) example_K) (np.NDArray (3, 1) example_h)).
  - by_compute.
  - by_compute.
  - by apply wf_intro.
  - reflexivity.
  - reflexivity.
Defined.

(** ** Successive reductions: the scope and [K] *)

Lemma nth_map_lt {A B} (f1 : A -> B) (d : A) (d' : B) (l : list A) t :
  t < length l -> nth t (map f1 l) d' = f1 (nth t l d).
Proof.
  intros Ht. destruct (lookup_lt_is_Some_2 l t Ht) as [x Hx].
  rewrite (nth_lookup_Some _ _ d x Hx).
  apply nth_lookup_Some. by rewrite list_lookup_fmap, Hx.
Qed.

Lemma item_gather K I I' t t' :
  t < length I -> t' < length I' ->
  np.item (gather K I I') t t' = np.item K (nth t I 0) (nth t' I' 0).
Proof.
  intros Ht Ht'. unfold gather, np.item at 1. cbn [np.data].
  rewrite (nth_map_lt (fun i => map (fun j => np.item K i j) I') 0 [] I t Ht).
  by rewrite (nth_map_lt (fun j => np.item K (nth t I 0) j) 0 0%Qc I' t' Ht').
Qed.

Lemma gather_gather K I J :
  Forall (fun t => t < length I) J ->
  gather (gather K I I) J J
  = gather K (map (fun t => nth t I 0) J) (map (fun t => nth t I 0) J).
Proof.
  intros HJ. unfold gather at 1 3. rewrite !length_map. f_equal.
  rewrite map_map. apply map_ext_in. intros t Ht.
  rewrite map_map. apply map_ext_in. intros t' Ht'.
  rewrite Forall_forall in HJ. by apply item_gather; apply HJ.
Qed.

Lemma nth_find_index (v : string) (l : list string) :
  v ∈ l -> nth (find_index v l) l "" = v.
Proof. intros Hv. apply nth_lookup_Some. by apply lookup_find_index. Qed.

(** The positions in the original scope of what is left of it. *)
Lemma positions_compose (P : string -> Prop) `{!forall v, Decision (P v)}
    (scope names : list string) :
  Forall (fun v => v ∈ filter P scope) names ->
  map (fun t => nth t (map (fun v => find_index v scope) (filter P scope)) 0)
      (map (fun v => find_index v (filter P scope)) names)
  = map (fun v => find_index v scope) names.
Proof.
  intros Hnames. rewrite map_map. apply map_ext_in. intros v Hv.
  rewrite Forall_forall in Hnames. specialize (Hnames v Hv).
  rewrite (nth_map_lt (fun v => find_index v scope) "" 0 (filter P scope))
    by (by apply find_index_lt).
  by rewrite nth_find_index.
Qed.

Lemma filter_twice (n1 n2 scope : list string) :
  filter (fun v => v ∉ n2) (filter (fun v => v ∉ n1) scope)
  = filter (fun v => v ∉ (n1 ++ n2)) scope.
Proof.
  rewrite list_filter_filter. apply list_filter_iff.
  intros v. rewrite not_elem_of_app. tauto.
Qed.

Lemma filter_twice_comm (n1 n2 scope : list string) :
  filter (fun v => v ∉ n2) (filter (fun v => v ∉ n1) scope)
  = filter (fun v => v ∉ n1) (filter (fun v => v ∉ n2) scope).
Proof. rewrite !list_filter_filter. apply list_filter_iff. tauto. Qed.

(** The scope and the [K] that [reduce] stores: the variables not named, and
    the entries of [K] at their positions. *)
Lemma reduce_core_variables_K scope K h g values r :
  np.shape K = (length scope, length scope) ->
  np.shape h = (length scope, 1) ->
  Forall (fun v => v ∈ scope) values.*1 ->
  reduce_core scope K h g values = Ok r ->
  let kept := filter (fun var => var ∉ values.*1) scope in
  let ik := map (fun v => find_index v scope) kept in
  new_variables r = kept /\ new_K r = gather K ik ik.
Proof.
  intros HsK Hsh Hnames Hr.
  rewrite (reduce_core_gather _ _ _ _ _ HsK Hsh Hnames) in Hr.
  set (ik := map _ (filter _ scope)) in *. set (ir := map _ values.*1) in *.
  edestruct (conditional_parameters_Ok g (filter (fun var => var ∉ values.*1) scope)
    (gather K ik ik) (gather K ik ir) (gather K ir ir) (gather_rows h ik)
    (gather_rows h ir)
    (np.column_of (sorted (map (fun p => (find_index p.1 scope, p.2)) values)).*2))
    as (h' & g' & Heq & _).
  - done.
  - done.
  - unfold gather_rows, np.ncols. by rewrite Hsh.
  - unfold gather_rows, np.ncols. by rewrite Hsh.
  - unfold np.column_of. rewrite length_fmap, length_sorted.
    unfold ir. by rewrite !length_map.
  - rewrite Heq in Hr. inversion Hr. by subst r.
Qed.

(** The scope and the [K] of a second reduction, in terms of the original
    factor. *)
Lemma reduce_core_then_variables_K scope K h g va vb ra rb :
  np.shape K = (length scope, length scope) ->
  np.shape h = (length scope, 1) ->
  Forall (fun v => v ∈ scope) va.*1 ->
  Forall (fun v => v ∈ scope /\ v ∉ va.*1) vb.*1 ->
  reduce_core scope K h g va = Ok ra ->
  reduce_core (new_variables ra) (new_K ra) (new_h ra) (GArray (new_g ra)) vb = Ok rb ->
  let kept := filter (fun var => var ∉ vb.*1) (filter (fun var => var ∉ va.*1) scope) in
  let ik := map (fun v => find_index v scope) kept in
  new_variables rb = kept /\ new_K rb = gather K ik ik.
Proof.
  intros HsK Hsh Ha Hb Hra Hrb.
  destruct (reduce_core_variables_K _ _ _ _ _ _ HsK Hsh Ha Hra) as [Hva HKa].
  destruct (reduce_core_total _ _ _ g _ HsK Hsh Ha)
    as (r & Hr & _ & HsKa & Hsha & _).
  assert (r = ra) by congruence. subst r.
  assert (Hb' : Forall (fun v => v ∈ new_variables ra) vb.*1).
  { rewrite Hva. eapply list.Forall_impl; [exact Hb|].
    intros v [Hv Hnv]. by apply list_elem_of_filter. }
  destruct (reduce_core_variables_K _ _ _ _ _ _ HsKa Hsha Hb' Hrb) as [Hvb HKb].
  rewrite Hva in Hvb. split; [exact Hvb|].
  rewrite HKb, HKa, Hva.
  set (scope1 := filter (fun var => var ∉ va.*1) scope).
  rewrite gather_gather.
  - unfold scope1.
    rewrite (positions_compose (fun var => var ∉ va.*1)); [done|].
    apply Forall_forall. intros v Hv. apply list_elem_of_In in Hv.
    by apply list_elem_of_filter in Hv as [_ ?].
  - apply Forall_forall. intros t Ht. apply in_map_iff in Ht as (v & <- & Hv).
    rewrite length_map. apply find_index_lt.
    apply list_elem_of_In in Hv. by apply list_elem_of_filter in Hv as [_ ?].
Qed.

(** One reduction in place, run. *)
Lemma reduce_inplace_variables_K σ self a values :
  attrs σ self = Some a ->
  consistent a ->
  Forall (fun v => v ∈ a_variables a) values.*1 ->
  exists σ' a',
    reduce self (PyList values) true σ = (Ok None, σ') /\
    attrs σ' self = Some a' /\ consistent a' /\
    (exists r, reduce_core (a_variables a) (a_K a) (a_h a) (a_g a) values = Ok r /\
               a' = reduced_attrs r).
Proof.
  intros Ha Hc Hnames.
  destruct (reduce_both_modes σ self a values Ha Hc Hnames)
    as (r & Hr & Hc' & _ & _ & (σ' & Hred & Ha')).
  exists σ', (reduced_attrs r). split_and!; [done..|]. by exists r.
Qed.

(** Two reductions in place, one after the other, run. *)
Lemma reduce_twice_variables_K σ self a va vb :
  attrs σ self = Some a ->
  consistent a ->
  Forall (fun v => v ∈ a_variables a) va.*1 ->
  Forall (fun v => v ∈ a_variables a /\ v ∉ va.*1) vb.*1 ->
  let kept :=
    filter (fun var => var ∉ vb.*1) (filter (fun var => var ∉ va.*1) (a_variables a)) in
  let ik := map (fun v => find_index v (a_variables a)) kept in
  exists σ1 σ2 a2,
    reduce self (PyList va) true σ = (Ok None, σ1) /\
    reduce self (PyList vb) true σ1 = (Ok None, σ2) /\
    attrs σ2 self = Some a2 /\
    a_variables a2 = kept /\ a_K a2 = gather (a_K a) ik ik.
Proof.
  intros Ha Hc Hna Hnb.
  destruct (reduce_inplace_variables_K σ self a va Ha Hc Hna)
    as (σ1 & a1 & Hred1 & Ha1 & Hc1 & (ra & Hra & ->)).
  pose proof Hc as (_ & HsK & _ & Hsh & _).
  destruct (reduce_core_variables_K _ _ _ _ _ _ HsK Hsh Hna Hra) as [Hva _].
  destruct (reduce_inplace_variables_K σ1 self (reduced_attrs ra) vb Ha1 Hc1)
    as (σ2 & a2 & Hred2 & Ha2 & _ & (rb & Hrb & ->)).
  { cbn [reduced_attrs a_variables]. rewrite Hva.
    eapply list.Forall_impl; [exact Hnb|].
    intros v [Hv Hnv]. by apply list_elem_of_filter. }
  cbn [reduced_attrs a_variables a_K a_h a_g] in Hrb.
  destruct (reduce_core_then_variables_K _ _ _ _ _ _ _ _ HsK Hsh Hna Hnb Hra Hrb)
    as [Hvb HKb].
  by exists σ1, σ2, (reduced_attrs rb).
Qed.

(** On a consistent factor, a reduction in place by [values1] and then one
    by [values2] (variables of the scope, none of [values1] named again in
    [values2]; any order, and names may repeat within a list) both return,
    and so does the one reduction by [values1 ++ values2]; the two ways
    leave the same scope and the same [K].  Nothing is said of [h] and
    [g], whose values depend on the order of the pairs and of the
    arithmetic. *)
Theorem reduce_in_steps_variables_K σ self a values1 values2 :
  attrs σ self = Some a ->
  consistent a ->
  Forall (fun v => v ∈ a_variables a) values1.*1 ->
  Forall (fun v => v ∈ a_variables a /\ v ∉ values1.*1) values2.*1 ->
  exists σ1 σ2 σ12 a2 a12,
    reduce self (PyList values1) true σ = (Ok None, σ1) /\
    reduce self (PyList values2) true σ1 = (Ok None, σ2) /\
    reduce self (PyList (values1 ++ values2)) true σ = (Ok None, σ12) /\
    attrs σ2 self = Some a2 /\ attrs σ12 self = Some a12 /\
    a_variables a2 = a_variables a12 /\ a_K a2 = a_K a12.
Proof.
  intros Ha Hc Hn1 Hn2.
  destruct (reduce_twice_variables_K σ self a values1 values2 Ha Hc Hn1 Hn2)
    as (σ1 & σ2 & a2 & Hred1 & Hred2 & Ha2 & Hv2 & HK2).
  assert (Hn12 : Forall (fun v => v ∈ a_variables a) (values1 ++ values2).*1).
  { rewrite fmap_app. apply Forall_app. split; [done|].
    eapply list.Forall_impl; [exact Hn2|]. by intros v [Hv _]. }
  destruct (reduce_inplace_variables_K σ self a (values1 ++ values2) Ha Hc Hn12)
    as (σ12 & a12 & Hred12 & Ha12 & _ & (r & Hr & ->)).
  destruct Hc as (_ & HsK & _ & Hsh & _).
  destruct (reduce_core_variables_K _ _ _ _ _ _ HsK Hsh Hn12 Hr) as [Hv12 HK12].
  exists σ1, σ2, σ12, a2, (reduced_attrs r). split_and!; try done.
  - cbn [reduced_attrs a_variables]. rewrite Hv2, Hv12, fmap_app. apply filter_twice.
  - cbn [reduced_attrs a_K]. rewrite HK2, HK12, fmap_app. by rewrite filter_twice.
Qed.

Lemma reduce_in_steps_variables_K_witness :
  exists σ1 σ2 σ12 a2 a12,
    reduce phi (PyList [("X3", Q2Qc (1 # 4))]) true example_heap = (Ok None, σ1) /\
    reduce phi (PyList [("X1", qz 2)]) true σ1 = (Ok None, σ2) /\
    reduce phi (PyList ([("X3", Q2Qc (1 # 4))] ++ [("X1", qz 2)])) true example_heap
      = (Ok None, σ12) /\
    attrs σ2 phi = Some a2 /\ attrs σ12 phi = Some a12 /\
    a_variables a2 = a_variables a12 /\ a_K a2 = a_K a12.
Proof.
  apply (reduce_in_steps_variables_K example_heap phi example_attrs
           [("X3", Q2Qc (1 # 4))] [("X1", qz 2)] example_attrs_eq example_consistent).
  - by_compute.
  - by_compute.
Defined.

(** On a consistent factor, two reductions in place by lists of pairs that
    name variables of the scope and share no variable return in either
    order, and the two orders leave the same scope and the same [K]. *)
Theorem reduce_steps_order_variables_K σ self a values1 values2 :
  attrs σ self = Some a ->
  consistent a ->
  Forall (fun v => v ∈ a_variables a) values1.*1 ->
  Forall (fun v => v ∈ a_variables a) values2.*1 ->
  Forall (fun v => v ∉ values1.*1) values2.*1 ->
  exists σ1 σ12 σ2 σ21 a12 a21,
    reduce self (PyList values1) true σ = (Ok None, σ1) /\
    reduce self (PyList values2) true σ1 = (Ok None, σ12) /\
    reduce self (PyList values2) true σ = (Ok None, σ2) /\
    reduce self (PyList values1) true σ2 = (Ok None, σ21) /\
    attrs σ12 self = Some a12 /\ attrs σ21 self = Some a21 /\
    a_variables a12 = a_variables a21 /\ a_K a12 = a_K a21.
Proof.
  intros Ha Hc Hn1 Hn2 Hdisj.
  assert (H12 : Forall (fun v => v ∈ a_variables a /\ v ∉ values1.*1) values2.*1).
  { apply list.Forall_forall. intros v Hv. split.
    - by apply (proj1 (list.Forall_forall _ _) Hn2).
    - by apply (proj1 (list.Forall_forall _ _) Hdisj). }
  assert (H21 : Forall (fun v => v ∈ a_variables a /\ v ∉ values2.*1) values1.*1).
  { apply list.Forall_forall. intros v Hv. split.
    - by apply (proj1 (list.Forall_forall _ _) Hn1).
    - intros Hv2. by apply (proj1 (list.Forall_forall _ _) Hdisj v Hv2). }
  destruct (reduce_twice_variables_K σ self a values1 values2 Ha Hc Hn1 H12)
    as (σ1 & σ12 & a12 & Hred1 & Hred12 & Ha12 & Hv12 & HK12).
  destruct (reduce_twice_variables_K σ self a values2 values1 Ha Hc Hn2 H21)
    as (σ2 & σ21 & a21 & Hred2 & Hred21 & Ha21 & Hv21 & HK21).
  exists σ1, σ12, σ2, σ21, a12, a21. split_and!; try done.
  - rewrite Hv12, Hv21. apply filter_twice_comm.
  - rewrite HK12, HK21. by rewrite filter_twice_comm.
Qed.

Lemma reduce_steps_order_variables_K_witness :
  exists σ1 σ12 σ2 σ21 a12 a21,
    reduce phi (PyList [("X3", Q2Qc (1 # 4))]) true example_heap = (Ok None, σ1) /\
    reduce phi (PyList [("X1", qz 2)]) true σ1 = (Ok None, σ12) /\
    reduce phi (PyList [("X1", qz 2)]) true example_heap = (Ok None, σ2) /\
    reduce phi (PyList [("X3", Q2Qc (1 # 4))]) true σ2 = (Ok None, σ21) /\
    attrs σ12 phi = Some a12 /\ attrs σ21 phi = Some a21 /\
    a_variables a12 = a_variables a21 /\ a_K a12 = a_K a21.
Proof.
  apply (reduce_steps_order_variables_K example_heap phi example_attrs
           [("X3", Q2Qc (1 # 4))] [("X1", qz 2)] example_attrs_eq example_consistent).
  - by_compute.
  - by_compute.
  - by_compute.
Defined.
